(** * LinearVestingVault: a shallow embedding and its accounting properties

    The development follows [contracts/LinearVestingVault.sol].  Solidity
    [uint256] values are integers in [Z] together with the range
    [0 .. 2^256 - 1]; every arithmetic operation of the contract goes through
    SafeMath (or, for [length - 1], the checked arithmetic of the compiler)
    and therefore either yields the exact result or reverts.  A call
    of the contract is a computation over the contract storage and the asset
    ledger that returns a value or reverts, and that records the external
    transfers and the events in the order in which the code performs them. *)

From Stdlib Require Import ZArith Lia.
From stdpp Require Import base option list gmap fin_maps.

Local Open Scope Z_scope.

(** ** Machine integers, errors *)

Definition MAX_UINT256 : Z := 2 ^ 256 - 1.

Definition is_uint256 (x : Z) : bool := (0 <=? x) && (x <=? MAX_UINT256).

Abbreviation address := Z (only parsing).

(** The ways in which a call can revert.  The six [require] statements of the
    vault keep their own constructor; [ArithmeticOverflow] and
    [DivisionByZero] are the two SafeMath failures, [ArrayOutOfBounds] an
    unguarded array access; [NotOwner] is the [onlyOwner] modifier,
    [TransferFailed] a failing ledger transfer, and [OutOfFuel] the loop of
    [releaseAll] exceeding its iteration bound (shown below never to occur). *)
Inductive error : Set :=
  | AllowanceNotSufficient   (* "Token allowance not sufficient" *)
  | ZeroAddressBeneficiary   (* "Cannot grant tokens to the zero address" *)
  | CliffExceedsDuration     (* "Cliff must not exceed duration" *)
  | BadInitialPct            (* "Initial release percentage must be ..." *)
  | IndexOutOfRange          (* "Index should be smaller than vesting array length" *)
  | NothingToRelease         (* "Nothing to release" *)
  | NotOwner
  | ArithmeticOverflow
  | DivisionByZero
  | ArrayOutOfBounds
  | TransferFailed
  | OutOfFuel.

Inductive result (A : Type) : Type :=
  | Ok (x : A)
  | Revert (e : error).
Arguments Ok {A} x.
Arguments Revert {A} e.

Definition result_bind {A B} (m : result A) (f : A → result B) : result B :=
  match m with
  | Ok x => f x
  | Revert e => Revert e
  end.

#[export] Instance result_mbind : MBind result :=
  λ A B f m, result_bind m f.
#[export] Instance result_mret : MRet result := @Ok.

(** ** SafeMath *)

(** Modelled from the spec: the SafeMath library is an OpenZeppelin import and
    not among the sources; section 4.1 fixes its meaning: unsigned integer
    arithmetic in which overflow of an addition or multiplication, underflow
    of a subtraction and division by zero reject the operation. *)
Module SafeMath.

Definition add (a b : Z) : result Z :=
  if a + b <=? MAX_UINT256 then Ok (a + b) else Revert ArithmeticOverflow.

Definition sub (a b : Z) : result Z :=
  if b <=? a then Ok (a - b) else Revert ArithmeticOverflow.

Definition mul (a b : Z) : result Z :=
  if a * b <=? MAX_UINT256 then Ok (a * b) else Revert ArithmeticOverflow.

Definition div (a b : Z) : result Z :=
  if b =? 0 then Revert DivisionByZero else Ok (a / b).

End SafeMath.

(** ** Data model *)

Record Allocation : Set := mkAllocation {
  start : Z;
  cliff : Z;
  duration : Z;
  total : Z;
  claimed : Z;
  initial : Z
}.

Definition wf_allocation (a : Allocation) : bool :=
  is_uint256 (start a) && is_uint256 (cliff a) && is_uint256 (duration a)
  && is_uint256 (total a) && is_uint256 (claimed a) && is_uint256 (initial a).

Definition with_claimed (c : Z) (a : Allocation) : Allocation :=
  mkAllocation (start a) (cliff a) (duration a) (total a) c (initial a).

(** ** Vesting calculator *)

(** [_vestedAmount]; [now] is [block.timestamp].  The named return variable
    [amount] is still zero where the third branch subtracts it. *)
Definition _vestedAmount (now : Z) (allocation : Allocation) : result Z :=
  let amount := 0 in
  cliffEnd ← SafeMath.add (start allocation) (cliff allocation);
  if now <? cliffEnd then Ok 0
  else
    vestingEnd ← SafeMath.add (start allocation) (duration allocation);
    if vestingEnd <=? now then Ok (total allocation)
    else
      rest ← SafeMath.sub (total allocation) (initial allocation);
      rest ← SafeMath.sub rest amount;
      elapsed ← SafeMath.sub now (start allocation);
      scaled ← SafeMath.mul rest elapsed;
      linear ← SafeMath.div scaled (duration allocation);
      SafeMath.add (initial allocation) linear.

(** [_releasableAmount] *)
Definition _releasableAmount (now : Z) (allocation : Allocation) : result Z :=
  vested ← _vestedAmount now allocation;
  SafeMath.sub vested (claimed allocation).

(** ** The asset ledger *)

(** Modelled from the spec: the token contract (OpenZeppelin ERC20 behind
    SafeERC20) is an external collaborator and not among the sources.
    Section 6 gives its interface, section 1 its failures (insufficient
    balance or allowance) and section 3 the custody it keeps for the vault:
    [transferFrom] moves an amount from a holder into the vault's custody,
    [transfer] moves an amount out of the vault's custody to a recipient.
    [approved] is the allowance each holder granted to the vault. *)
Module Ledger.

Record t : Type := mk {
  custodied : Z;
  holdings : gmap Z Z;
  approved : gmap Z Z
}.

Definition balanceOf (l : t) (who : address) : Z :=
  default 0 (holdings l !! who).

Definition allowance (l : t) (holder : address) : Z :=
  default 0 (approved l !! holder).

Definition transferFrom (holder : address) (amount : Z) (l : t) : result t :=
  if (amount <=? allowance l holder) && (amount <=? balanceOf l holder)
  then Ok (mk (custodied l + amount)
              (<[holder := balanceOf l holder - amount]> (holdings l))
              (<[holder := allowance l holder - amount]> (approved l)))
  else Revert TransferFailed.

Definition transfer (recipient : address) (amount : Z) (l : t) : result t :=
  if amount <=? custodied l
  then Ok (mk (custodied l - amount)
              (<[recipient := balanceOf l recipient + amount]> (holdings l))
              (approved l))
  else Revert TransferFailed.

End Ledger.

(** ** Contract state and calls *)

Record State : Type := mkState {
  owner : Z;
  allocations : gmap Z (list Allocation);
  token : Ledger.t
}.

Record Env : Set := mkEnv {
  msg_sender : Z;
  block_timestamp : Z
}.

(** [allocations[_beneficiary]]: a Solidity mapping is total, an absent key
    holds the empty array. *)
Definition allocs (s : State) (beneficiary : address) : list Allocation :=
  default [] (allocations s !! beneficiary).

Definition set_allocs (beneficiary : address) (l : list Allocation) (s : State) : State :=
  mkState (owner s) (<[beneficiary := l]> (allocations s)) (token s).

Definition set_token (t : Ledger.t) (s : State) : State :=
  mkState (owner s) (allocations s) t.

(** What a call does to the outside, in program order.  An external transfer
    carries the allocation storage as it stands when the call is made, which
    is what the callee could observe. *)
Inductive Effect : Type :=
  | CallTransferFrom (holder : Z) (amount : Z) (seen : gmap Z (list Allocation))
  | CallTransfer (recipient : Z) (amount : Z) (seen : gmap Z (list Allocation))
  | Issued (beneficiary amount startAt cliffLen durationLen : Z)
  | Released (beneficiary amount remaining : Z)
  | Revoked (beneficiary allocationAmount revokedAmount : Z).

Definition M (A : Type) : Type := State → list Effect * result (A * State).

Definition M_ret {A} (x : A) : M A := λ s, ([], Ok (x, s)).

Definition M_bind {A B} (m : M A) (f : A → M B) : M B :=
  λ s, match m s with
       | (es, Ok (x, s')) => let '(es', r) := f x s' in (es ++ es', r)
       | (es, Revert e) => (es, Revert e)
       end.

#[export] Instance M_mret : MRet M := @M_ret.
#[export] Instance M_mbind : MBind M := λ A B f m, M_bind m f.

Definition lift {A} (r : result A) : M A :=
  λ s, ([], match r with Ok x => Ok (x, s) | Revert e => Revert e end).

Definition require (cond : bool) (e : error) : M unit :=
  lift (if cond then Ok () else Revert e).

Definition gets {A} (f : State → A) : M A := λ s, ([], Ok (f s, s)).

Definition modify (f : State → State) : M unit := λ s, ([], Ok ((), f s)).

Definition emit (e : Effect) : M unit := λ s, ([e], Ok ((), s)).

(** [token.allowance(holder, address(this))] *)
Definition token_allowance (holder : address) : M Z :=
  gets (λ s, Ledger.allowance (token s) holder).

(** [token.safeTransferFrom(holder, address(this), amount)] *)
Definition safeTransferFrom (holder : address) (amount : Z) : M unit :=
  λ s, ([CallTransferFrom holder amount (allocations s)],
        match Ledger.transferFrom holder amount (token s) with
        | Ok t' => Ok ((), set_token t' s)
        | Revert e => Revert e
        end).

(** [token.safeTransfer(recipient, amount)] *)
Definition safeTransfer (recipient : address) (amount : Z) : M unit :=
  λ s, ([CallTransfer recipient amount (allocations s)],
        match Ledger.transfer recipient amount (token s) with
        | Ok t' => Ok ((), set_token t' s)
        | Revert e => Revert e
        end).

(** The [onlyOwner] modifier. *)
Definition onlyOwner (env : Env) : M unit :=
  o ← gets owner;
  require (o =? msg_sender env) NotOwner.

(** Reading [allocations[_beneficiary][_index]]. *)
Definition load (beneficiary : address) (index : Z) : M Allocation :=
  λ s, ([], match allocs s beneficiary !! Z.to_nat index with
            | Some a => Ok (a, s)
            | None => Revert ArrayOutOfBounds
            end).

(** Writing [allocations[_beneficiary][_index]]. *)
Definition store (beneficiary : address) (index : Z) (a : Allocation) : M unit :=
  modify (λ s, set_allocs beneficiary (<[Z.to_nat index := a]> (allocs s beneficiary)) s).

(** [allocations[_beneficiary].push(a)] *)
Definition push (beneficiary : address) (a : Allocation) : M unit :=
  modify (λ s, set_allocs beneficiary (allocs s beneficiary ++ [a]) s).

(** [allocations[_beneficiary].pop()] *)
Definition pop (beneficiary : address) : M unit :=
  modify (λ s, set_allocs beneficiary (removelast (allocs s beneficiary)) s).

(** [allocations[_beneficiary].length] *)
Definition array_length (beneficiary : address) : M Z :=
  gets (λ s, Z.of_nat (length (allocs s beneficiary))).

(** ** Ledger operations *)

Definition issue (env : Env)
    (_beneficiary : address) (_amount _startAt _cliff _duration _initialPct : Z) : M unit :=
  onlyOwner env;;
  granted ← token_allowance (msg_sender env);
  require (_amount <=? granted) AllowanceNotSufficient;;
  require (negb (_beneficiary =? 0)) ZeroAddressBeneficiary;;
  require (_cliff <=? _duration) CliffExceedsDuration;;
  require (_initialPct <=? 100) BadInitialPct;;
  safeTransferFrom (msg_sender env) _amount;;
  scaled ← lift (SafeMath.mul _amount _initialPct);
  initialAmount ← lift (SafeMath.div scaled 100);
  push _beneficiary
    (mkAllocation _startAt _cliff _duration _amount 0 initialAmount);;
  emit (Issued _beneficiary _amount _startAt _cliff _duration).

(** [allocation] is a memory copy here; [length - 1] is checked by the
    compiler like a SafeMath subtraction. *)
Definition revoke (env : Env) (_beneficiary : address) (_index : Z) : M unit :=
  onlyOwner env;;
  len ← array_length _beneficiary;
  require (_index <? len) IndexOutOfRange;;
  allocation ← load _beneficiary _index;
  let total_ := total allocation in
  remainder ← lift (SafeMath.sub total_ (claimed allocation));
  lastIndex ← lift (SafeMath.sub len 1);
  (if negb (_index =? lastIndex)
   then (lastOne ← load _beneficiary lastIndex; store _beneficiary _index lastOne)
   else mret ());;
  pop _beneficiary;;
  safeTransfer (msg_sender env) remainder;;
  emit (Revoked _beneficiary total_ remainder).

(** In [release] the variable [allocation] is a storage pointer: the
    assignment writes through it and the event reads the updated storage. *)
Definition release (env : Env) (_beneficiary : address) (_index : Z) : M unit :=
  len ← array_length _beneficiary;
  require (_index <? len) IndexOutOfRange;;
  allocation ← load _beneficiary _index;
  amount ← lift (_releasableAmount (block_timestamp env) allocation);
  require (0 <? amount) NothingToRelease;;
  newClaimed ← lift (SafeMath.add (claimed allocation) amount);
  store _beneficiary _index (with_claimed newClaimed allocation);;
  safeTransfer _beneficiary amount;;
  allocation' ← load _beneficiary _index;
  remaining ← lift (SafeMath.sub (total allocation') (claimed allocation'));
  emit (Released _beneficiary amount remaining).

(** The [for] loop of [releaseAll]: the bound [allocations[_beneficiary].length]
    is read again before every iteration.  [i++] cannot overflow since
    [i] is below an array length.  [fuel] bounds the number of iterations. *)
Fixpoint releaseAll_loop (fuel : nat) (env : Env) (_beneficiary : address) (i : Z) : M unit :=
  len ← array_length _beneficiary;
  if i <? len then
    match fuel with
    | O => lift (Revert OutOfFuel)
    | S fuel' =>
        release env _beneficiary i;;
        releaseAll_loop fuel' env _beneficiary (i + 1)
    end
  else mret ().

(** The loop is given as many iterations as the array has elements on
    entry; [release] never changes that number. *)
Definition releaseAll (env : Env) (_beneficiary : address) : M unit :=
  len ← gets (λ s, length (allocs s _beneficiary));
  releaseAll_loop len env _beneficiary 0.

(** The external view [releasableAmount]: the array access is not guarded. *)
Definition releasableAmount (env : Env) (_beneficiary : address) (_index : Z) : M Z :=
  allocation ← load _beneficiary _index;
  lift (_releasableAmount (block_timestamp env) allocation).

(** ** Transactions and reachable states *)

(** A reverted call leaves the state as it was. *)
Definition state_after (m : M unit) (s : State) : State :=
  match (m s).2 with
  | Ok (_, s') => s'
  | Revert _ => s
  end.

Definition effects_of (m : M unit) (s : State) : list Effect := (m s).1.

Definition outcome (m : M unit) (s : State) : result unit :=
  match (m s).2 with
  | Ok _ => Ok ()
  | Revert e => Revert e
  end.

Definition is_address (x : Z) : bool := (0 <=? x) && (x <? 2 ^ 160).

Inductive Op : Set :=
  | OpIssue (beneficiary amount startAt cliffLen durationLen initialPct : Z)
  | OpRelease (beneficiary index : Z)
  | OpReleaseAll (beneficiary : Z)
  | OpRevoke (beneficiary index : Z).

(** Arguments are values of their Solidity types. *)
Definition wf_op (op : Op) : bool :=
  match op with
  | OpIssue b amount startAt c d pct =>
      is_address b && is_uint256 amount && is_uint256 startAt
      && is_uint256 c && is_uint256 d && is_uint256 pct
  | OpRelease b i | OpRevoke b i => is_address b && is_uint256 i
  | OpReleaseAll b => is_address b
  end.

Definition wf_env (env : Env) : bool :=
  is_address (msg_sender env) && is_uint256 (block_timestamp env).

Definition run (env : Env) (op : Op) : M unit :=
  match op with
  | OpIssue b amount startAt c d pct => issue env b amount startAt c d pct
  | OpRelease b i => release env b i
  | OpReleaseAll b => releaseAll env b
  | OpRevoke b i => revoke env b i
  end.

(** The vault starts with an empty store and nothing in custody. *)
Definition initial_state (s : State) : Prop :=
  allocations s = ∅ ∧ Ledger.custodied (token s) = 0.

Inductive reachable : State → Prop :=
  | reachable_init s : initial_state s → reachable s
  | reachable_step s env op s' :
      reachable s → wf_env env = true → wf_op op = true →
      s' = state_after (run env op) s →
      reachable s'.

(** The amount still owed on the allocations of one beneficiary, and on all
    live allocations. *)
Definition outstanding (l : list Allocation) : Z :=
  foldr (λ a acc, (total a - claimed a) + acc) 0 l.

Definition total_outstanding (m : gmap Z (list Allocation)) : Z :=
  map_fold (λ _ l acc, outstanding l + acc) 0 m.

(** ** Derived descriptions used in the statements *)

(** An allocation after [amount] has been released from it. *)
Definition released (amount : Z) (a : Allocation) : Allocation :=
  with_claimed (claimed a + amount) a.

(** An allocation after whatever is releasable at [now] has been released. *)
Definition released_at (now : Z) (a : Allocation) : Allocation :=
  match _releasableAmount now a with
  | Ok amount => released amount a
  | Revert _ => a
  end.

(** The amount releasable at [now] is defined and positive. *)
Definition has_releasable (now : Z) (a : Allocation) : bool :=
  match _releasableAmount now a with
  | Ok amount => 0 <? amount
  | Revert _ => false
  end.

(** An allocation whose fields are [uint256] values and whose releasable
    amount at [now] is defined. *)
Definition releasable_defined (now : Z) (a : Allocation) : Prop :=
  wf_allocation a = true ∧ ∃ amount, _releasableAmount now a = Ok amount.

(** The array after the removal done by [revoke]: the last element takes the
    place of the removed one unless the removed one is the last. *)
Definition swap_pop (i : nat) (l : list Allocation) : list Allocation :=
  removelast
    (if decide (i = pred (length l)) then l
     else match l !! pred (length l) with
          | Some x => <[i := x]> l
          | None => l
          end).

(** What holds of every stored allocation: its fields are [uint256] values
    and no more than [total] has been claimed. *)
Definition alloc_inv (a : Allocation) : Prop :=
  wf_allocation a = true ∧ claimed a ≤ total a.

Definition bounded_store (s : State) : Prop :=
  ∀ b, Forall alloc_inv (allocs s b).

(** The custody of the ledger backs exactly what is still owed. *)
Definition custody_matches (s : State) : Prop :=
  total_outstanding (allocations s) = Ledger.custodied (token s).

(** ** Scenarios used as concrete instances *)

(** Half of 100 available at the cliff, cliff 5, duration 10, start 0. *)
Definition half_at_cliff : Allocation := mkAllocation 0 5 10 100 0 50.

(** The owner (identity 1) holds 1000 units and has approved 60 of them to
    the vault; nothing has been issued yet. *)
Definition fresh_vault : State :=
  mkState 1 ∅ (Ledger.mk 0 {[1 := 1000]} {[1 := 60]}).

(** Two grants of 30 to beneficiary 7, issued by the owner at time 100:
    the first starts at 102, the second at 112, both without cliff and
    lasting 10. *)
Definition one_grant : State :=
  state_after (run (mkEnv 1 100) (OpIssue 7 30 102 0 10 0)) fresh_vault.

Definition two_grants : State :=
  state_after (run (mkEnv 1 100) (OpIssue 7 30 112 0 10 0)) one_grant.

(** Somebody (identity 9) releases the first grant at time 105. *)
Definition after_release : State :=
  state_after (run (mkEnv 9 105) (OpRelease 7 0)) two_grants.

(** Both grants are fully vested at time 125 and released in one call. *)
Definition all_released : State :=
  state_after (run (mkEnv 9 125) (OpReleaseAll 7)) two_grants.

(** The owner revokes the first grant right after issuing both (the order of
    the repository's revoke test), and everything is released at time 125. *)
Definition first_revoked : State :=
  state_after (run (mkEnv 1 101) (OpRevoke 7 0)) two_grants.

Definition first_revoked_released : State :=
  state_after (run (mkEnv 9 125) (OpReleaseAll 7)) first_revoked.

(** The schedule of an allocation as [issue] validates it. *)
Definition schedule_inv (a : Allocation) : Prop :=
  wf_allocation a = true ∧ initial a ≤ total a ∧ cliff a ≤ duration a.

Definition scheduled_store (s : State) : Prop :=
  ∀ b, Forall schedule_inv (allocs s b).

(** A grant of nothing: the owner issues amount 0 to beneficiary 8. *)
Definition empty_grant : State :=
  state_after (run (mkEnv 1 100) (OpIssue 8 0 102 0 10 0)) two_grants.

(** A holder of 2^255 units who is owner and has approved all of them. *)
Definition whale_vault : State :=
  mkState 1 ∅ (Ledger.mk 0 {[1 := 2 ^ 255]} {[1 := 2 ^ 255]}).

(** A grant whose schedule ends beyond the largest timestamp: it starts at
    [2^256 - 1] and lasts 10. *)
Definition late_grant : State :=
  state_after (run (mkEnv 1 100) (OpIssue 7 30 MAX_UINT256 0 10 0)) fresh_vault.

(** Somebody releases the first grant in full at time 112, when its
    duration has elapsed. *)
Definition first_fully_claimed : State :=
  state_after (run (mkEnv 9 112) (OpRelease 7 0)) two_grants.

(** * Properties *)

(** ** Range predicates and SafeMath *)

Lemma is_uint256_spec x : is_uint256 x = true ↔ 0 ≤ x ≤ MAX_UINT256.
Proof. unfold is_uint256. rewrite andb_true_iff, !Z.leb_le. tauto. Qed.

Lemma wf_allocation_spec a :
  wf_allocation a = true ↔
  (0 ≤ start a ≤ MAX_UINT256) ∧ (0 ≤ cliff a ≤ MAX_UINT256) ∧
  (0 ≤ duration a ≤ MAX_UINT256) ∧ (0 ≤ total a ≤ MAX_UINT256) ∧
  (0 ≤ claimed a ≤ MAX_UINT256) ∧ (0 ≤ initial a ≤ MAX_UINT256).
Proof. unfold wf_allocation. rewrite !andb_true_iff, !is_uint256_spec. tauto. Qed.

Lemma add_Ok a b : a + b ≤ MAX_UINT256 → SafeMath.add a b = Ok (a + b).
Proof. intros H. unfold SafeMath.add. by rewrite (proj2 (Z.leb_le _ _) H). Qed.

Lemma add_Revert a b :
  MAX_UINT256 < a + b → SafeMath.add a b = Revert ArithmeticOverflow.
Proof. intros H. unfold SafeMath.add. by rewrite (proj2 (Z.leb_gt _ _) H). Qed.

Lemma sub_Ok a b : b ≤ a → SafeMath.sub a b = Ok (a - b).
Proof. intros H. unfold SafeMath.sub. by rewrite (proj2 (Z.leb_le _ _) H). Qed.

Lemma sub_Revert a b : a < b → SafeMath.sub a b = Revert ArithmeticOverflow.
Proof. intros H. unfold SafeMath.sub. by rewrite (proj2 (Z.leb_gt _ _) H). Qed.

Lemma mul_Ok a b : a * b ≤ MAX_UINT256 → SafeMath.mul a b = Ok (a * b).
Proof. intros H. unfold SafeMath.mul. by rewrite (proj2 (Z.leb_le _ _) H). Qed.

Lemma mul_Revert a b :
  MAX_UINT256 < a * b → SafeMath.mul a b = Revert ArithmeticOverflow.
Proof. intros H. unfold SafeMath.mul. by rewrite (proj2 (Z.leb_gt _ _) H). Qed.

Lemma div_Ok a b : b ≠ 0 → SafeMath.div a b = Ok (a / b).
Proof. intros H. unfold SafeMath.div. by rewrite (proj2 (Z.eqb_neq _ _) H). Qed.

Lemma add_inv a b r : SafeMath.add a b = Ok r → r = a + b ∧ a + b ≤ MAX_UINT256.
Proof.
  unfold SafeMath.add. destruct (Z.leb_spec (a + b) MAX_UINT256); [|done].
  intros [= <-]. done.
Qed.

Lemma sub_inv a b r : SafeMath.sub a b = Ok r → r = a - b ∧ b ≤ a.
Proof.
  unfold SafeMath.sub. destruct (Z.leb_spec b a); [|done].
  intros [= <-]. done.
Qed.

Lemma bind_Ok {A B} (x : A) (f : A → result B) : (Ok x ≫= f) = f x.
Proof. reflexivity. Qed.

Lemma bind_Revert {A B} e (f : A → result B) : (Revert e ≫= f) = Revert e.
Proof. reflexivity. Qed.

(** Resolve the SafeMath operations and comparisons whose outcome follows
    from the hypotheses by linear arithmetic. *)
Ltac safemath_step :=
  match goal with
  | |- context [SafeMath.add ?x ?y] => rewrite (add_Ok x y) by lia
  | |- context [SafeMath.add ?x ?y] => rewrite (add_Revert x y) by lia
  | |- context [SafeMath.sub ?x ?y] => rewrite (sub_Ok x y) by lia
  | |- context [SafeMath.sub ?x ?y] => rewrite (sub_Revert x y) by lia
  | |- context [SafeMath.mul ?x ?y] => rewrite (mul_Ok x y) by lia
  | |- context [SafeMath.mul ?x ?y] => rewrite (mul_Revert x y) by lia
  | |- context [SafeMath.div ?x ?y] => rewrite (div_Ok x y) by lia
  | |- context [?x <? ?y] => rewrite (proj2 (Z.ltb_lt x y)) by lia
  | |- context [?x <? ?y] => rewrite (proj2 (Z.ltb_ge x y)) by lia
  | |- context [?x <=? ?y] => rewrite (proj2 (Z.leb_le x y)) by lia
  | |- context [?x <=? ?y] => rewrite (proj2 (Z.leb_gt x y)) by lia
  | |- context [?x =? ?y] => rewrite (proj2 (Z.eqb_eq x y)) by lia
  | |- context [?x =? ?y] => rewrite (proj2 (Z.eqb_neq x y)) by lia
  | |- context [Ok ?x ≫= ?f] => rewrite (bind_Ok x f)
  | |- context [Revert ?e ≫= ?f] => rewrite (bind_Revert e f)
  end.

Ltac safemath := repeat safemath_step.

(** ** The vesting calculator, branch by branch *)

Section Calculator.

Variable a : Allocation.
Hypothesis Hwf : wf_allocation a = true.

Lemma vested_before_cliff now :
  start a + cliff a ≤ MAX_UINT256 → now < start a + cliff a →
  _vestedAmount now a = Ok 0.
Proof. intros Hc Hlt. unfold _vestedAmount. by safemath. Qed.

Lemma vested_after_end now :
  start a + cliff a ≤ now → start a + duration a ≤ now → now ≤ MAX_UINT256 →
  _vestedAmount now a = Ok (total a).
Proof. intros Hc Hd Hn. unfold _vestedAmount. by safemath. Qed.

(** Floor division keeps the linear part below the amount it scales. *)
Lemma linear_part_bounds rest elapsed :
  0 ≤ rest → 0 ≤ elapsed < duration a →
  0 ≤ rest * elapsed / duration a ≤ rest.
Proof.
  intros Hr He. split.
  - apply Z.div_pos; nia.
  - apply Z.div_le_upper_bound; nia.
Qed.

Lemma vested_linear now :
  start a + cliff a ≤ now → now < start a + duration a →
  start a + duration a ≤ MAX_UINT256 →
  initial a ≤ total a →
  (total a - initial a) * (now - start a) ≤ MAX_UINT256 →
  _vestedAmount now a =
    Ok (initial a + (total a - initial a) * (now - start a) / duration a).
Proof.
  intros Hc Hd Hmax Hini Hmul.
  pose proof (proj1 (wf_allocation_spec a) Hwf) as (Hs & Hcl & Hdu & Ht & _ & Hi).
  assert (0 ≤ now - start a < duration a) as He by lia.
  pose proof (linear_part_bounds (total a - initial a) (now - start a)
                ltac:(lia) He) as Hq.
  unfold _vestedAmount. safemath. rewrite ?Z.sub_0_r. by safemath.
Qed.

(** The linear branch rejects a product that does not fit in 256 bits. *)
Lemma vested_linear_overflow now :
  start a + cliff a ≤ now → now < start a + duration a →
  start a + duration a ≤ MAX_UINT256 →
  initial a ≤ total a →
  MAX_UINT256 < (total a - initial a) * (now - start a) →
  _vestedAmount now a = Revert ArithmeticOverflow.
Proof.
  intros Hc Hd Hmax Hini Hmul.
  pose proof (proj1 (wf_allocation_spec a) Hwf) as (Hs & Hcl & Hdu & Ht & _ & Hi).
  unfold _vestedAmount. safemath. rewrite ?Z.sub_0_r. by safemath.
Qed.

(** Whatever the branch, a returned amount lies between 0 and [total]. *)
Lemma vested_range now v :
  0 ≤ now → _vestedAmount now a = Ok v → 0 ≤ v ≤ total a.
Proof.
  intros Hn.
  pose proof (proj1 (wf_allocation_spec a) Hwf) as (Hs & Hcl & Hdu & Ht & _ & Hi).
  destruct (Z.le_gt_cases (start a + cliff a) MAX_UINT256);
    [|unfold _vestedAmount; by safemath].
  destruct (Z.le_gt_cases (start a + cliff a) now);
    [|rewrite vested_before_cliff by lia; intros [= <-]; lia].
  destruct (Z.le_gt_cases (start a + duration a) MAX_UINT256);
    [|unfold _vestedAmount; by safemath].
  destruct (Z.le_gt_cases (start a + duration a) now);
    [unfold _vestedAmount; safemath; intros [= <-]; lia|].
  destruct (Z.le_gt_cases (initial a) (total a));
    [|unfold _vestedAmount; by safemath].
  destruct (Z.le_gt_cases ((total a - initial a) * (now - start a)) MAX_UINT256);
    [|by rewrite vested_linear_overflow].
  rewrite vested_linear by lia. intros [= <-].
  pose proof (linear_part_bounds (total a - initial a) (now - start a)
                ltac:(lia) ltac:(lia)). lia.
Qed.

End Calculator.

(** A returned amount determines the branch that produced it. *)
Lemma vested_cases a now v :
  wf_allocation a = true → 0 ≤ now → _vestedAmount now a = Ok v →
  (now < start a + cliff a ∧ v = 0)
  ∨ (start a + cliff a ≤ now ∧ start a + duration a ≤ now ∧ v = total a)
  ∨ (start a + cliff a ≤ now < start a + duration a ∧ initial a ≤ total a
     ∧ v = initial a + (total a - initial a) * (now - start a) / duration a).
Proof.
  intros Hwf Hn.
  pose proof (proj1 (wf_allocation_spec a) Hwf) as (Hs & Hcl & Hdu & Ht & _ & Hi).
  destruct (Z.le_gt_cases (start a + cliff a) MAX_UINT256);
    [|unfold _vestedAmount; by safemath].
  destruct (Z.le_gt_cases (start a + cliff a) now);
    [|rewrite vested_before_cliff by (done || lia); intros [= <-]; left; lia].
  destruct (Z.le_gt_cases (start a + duration a) MAX_UINT256);
    [|unfold _vestedAmount; by safemath].
  destruct (Z.le_gt_cases (start a + duration a) now);
    [unfold _vestedAmount; safemath; intros [= <-]; right; left; lia|].
  destruct (Z.le_gt_cases (initial a) (total a));
    [|unfold _vestedAmount; by safemath].
  destruct (Z.le_gt_cases ((total a - initial a) * (now - start a)) MAX_UINT256);
    [|by rewrite vested_linear_overflow].
  rewrite vested_linear by (done || lia). intros [= <-]. right; right. lia.
Qed.

(** ** Claims about the calculator *)

(** C3: between the cliff and the end of the duration the vested amount is
    [initial + (total - initial) * (now - start) / duration] with floor
    division: the elapsed time is counted from [start], not from the cliff,
    and divided by the whole duration.  The side conditions are those of the
    unsigned 256-bit arithmetic: the fields are [uint256] values with
    [initial ≤ total], and the sum and the product formed on the way fit. *)
Theorem vestedAmount_linear_formula (a : Allocation) (now : Z) :
  wf_allocation a = true →
  initial a ≤ total a →
  start a + duration a ≤ MAX_UINT256 →
  (total a - initial a) * (now - start a) ≤ MAX_UINT256 →
  start a + cliff a ≤ now → now < start a + duration a →
  _vestedAmount now a =
    Ok (initial a + (total a - initial a) * (now - start a) / duration a).
Proof. intros. by apply vested_linear. Qed.

Lemma vestedAmount_linear_formula_witness :
  _vestedAmount 7 half_at_cliff = Ok 85.
Proof.
  apply (vestedAmount_linear_formula half_at_cliff 7);
    [reflexivity | simpl; lia | by vm_compute | by vm_compute
    | simpl; lia | simpl; lia].
Defined.

(** C2, as the code has it: before [start + cliff] nothing is vested and at
    [start + duration] everything is; at exactly [start + cliff] the amount is
    [initial] plus the linear part already accrued since [start], that is
    [initial + (total - initial) * cliff / duration] when [cliff < duration]
    (which is [initial] when that quotient is 0, in particular for
    [cliff = 0]) and [total] when [cliff = duration]. *)
Theorem vestedAmount_boundaries (a : Allocation) :
  wf_allocation a = true →
  cliff a ≤ duration a → initial a ≤ total a →
  start a + duration a ≤ MAX_UINT256 →
  (∀ now, now < start a + cliff a → _vestedAmount now a = Ok 0)
  ∧ _vestedAmount (start a + duration a) a = Ok (total a)
  ∧ (cliff a = duration a → _vestedAmount (start a + cliff a) a = Ok (total a))
  ∧ (cliff a < duration a → (total a - initial a) * cliff a ≤ MAX_UINT256 →
       _vestedAmount (start a + cliff a) a =
         Ok (initial a + (total a - initial a) * cliff a / duration a))
  ∧ (cliff a < duration a → (total a - initial a) * cliff a < duration a →
       _vestedAmount (start a + cliff a) a = Ok (initial a)).
Proof.
  intros Hwf Hcd Hit Hmax.
  pose proof (proj1 (wf_allocation_spec a) Hwf) as (Hs & Hcl & Hdu & Ht & _ & Hi).
  assert (∀ x, start a + x - start a = x) as Hcancel by (intros; lia).
  repeat split.
  - intros now Hlt. apply vested_before_cliff; (done || lia).
  - apply vested_after_end; lia.
  - intros Heq. apply vested_after_end; lia.
  - intros Hlt Hmul. rewrite vested_linear; rewrite ?Hcancel; (done || lia).
  - intros Hlt Hsmall. rewrite vested_linear; rewrite ?Hcancel; try (done || lia).
    rewrite Z.div_small by nia. f_equal. lia.
Qed.

Lemma vestedAmount_boundaries_witness :
  _vestedAmount 4 half_at_cliff = Ok 0
  ∧ _vestedAmount 10 half_at_cliff = Ok 100
  ∧ _vestedAmount 5 half_at_cliff = Ok (50 + 50 * 5 / 10).
Proof.
  destruct (vestedAmount_boundaries half_at_cliff) as (H0 & H1 & _ & H2 & _);
    [reflexivity | simpl; lia | simpl; lia | by vm_compute |].
  split; [apply H0; simpl; lia|]. split; [exact H1|].
  apply H2; [simpl; lia | by vm_compute].
Defined.

(** C2 as stated fails at the cliff: with [start = 0], [cliff = 5],
    [duration = 10], [total = 100] and [initial = 50] the amount vested at
    time [start + cliff = 5] is 75, not [initial = 50]. *)
Lemma vestedAmount_at_cliff_counterexample :
  wf_allocation half_at_cliff = true
  ∧ cliff half_at_cliff ≤ duration half_at_cliff
  ∧ initial half_at_cliff ≤ total half_at_cliff
  ∧ _vestedAmount (start half_at_cliff + cliff half_at_cliff) half_at_cliff = Ok 75
  ∧ _vestedAmount (start half_at_cliff + cliff half_at_cliff) half_at_cliff
    ≠ Ok (initial half_at_cliff).
Proof. repeat split; try (simpl; lia); by vm_compute. Qed.

(** C8: for a fixed allocation the vested amount does not decrease with
    time, also across the two branch boundaries: whenever the calculator
    returns at [t1 ≤ t2] the first amount is at most the second, and it does
    return at both times when no sum or product overflows. *)
Theorem vestedAmount_monotone (a : Allocation) (t1 t2 : Z) :
  wf_allocation a = true → 0 ≤ t1 → t1 ≤ t2 →
  (∀ v1 v2, _vestedAmount t1 a = Ok v1 → _vestedAmount t2 a = Ok v2 → v1 ≤ v2)
  ∧ (cliff a ≤ duration a → initial a ≤ total a →
     start a + duration a ≤ MAX_UINT256 →
     (total a - initial a) * duration a ≤ MAX_UINT256 →
     ∃ v1 v2, _vestedAmount t1 a = Ok v1 ∧ _vestedAmount t2 a = Ok v2 ∧ v1 ≤ v2).
Proof.
  intros Hwf H1 H12.
  pose proof (proj1 (wf_allocation_spec a) Hwf) as (Hs & Hcl & Hdu & Ht & _ & Hi).
  assert (∀ v1 v2, _vestedAmount t1 a = Ok v1 → _vestedAmount t2 a = Ok v2 → v1 ≤ v2)
    as Hmono.
  { intros v1 v2 E1 E2.
    pose proof (vested_range a Hwf t2 v2 ltac:(lia) E2) as R2.
    pose proof (vested_range a Hwf t1 v1 H1 E1) as R1.
    destruct (vested_cases a t1 v1 Hwf H1 E1)
      as [(? & ->)|[(? & ? & ->)|(? & ? & ->)]];
      destruct (vested_cases a t2 v2 Hwf ltac:(lia) E2)
        as [(? & ->)|[(? & ? & ->)|(? & ? & ->)]]; try lia.
    apply Z.add_le_mono_l, Z.div_le_mono; [lia|].
    apply Z.mul_le_mono_nonneg_l; lia. }
  split; [exact Hmono|].
  intros Hcd Hit Hmax Hmul.
  assert (∀ t, 0 ≤ t → ∃ v, _vestedAmount t a = Ok v) as Hret.
  { intros t Ht0.
    destruct (Z.le_gt_cases (start a + cliff a) t);
      [|eexists; apply vested_before_cliff; (done || lia)].
    destruct (Z.le_gt_cases (start a + duration a) t).
    - eexists. unfold _vestedAmount. by safemath.
    - eexists. apply vested_linear; [done | lia..| nia]. }
  destruct (Hret t1 H1) as [v1 E1]. destruct (Hret t2 ltac:(lia)) as [v2 E2].
  exists v1, v2. eauto.
Qed.

Lemma vestedAmount_monotone_witness :
  ∃ v1 v2, _vestedAmount 6 half_at_cliff = Ok v1
           ∧ _vestedAmount 9 half_at_cliff = Ok v2 ∧ v1 ≤ v2.
Proof.
  apply (vestedAmount_monotone half_at_cliff 6 9);
    [reflexivity | lia | lia | simpl; lia | simpl; lia
    | by vm_compute | by vm_compute].
Defined.

(** ** Running a call step by step *)

Section Steps.

Context {A B : Type}.
Implicit Types (f : A → M B) (k : M B) (s : State).

Lemma run_ret (x : A) f s : (mret x ≫= f) s = f x s.
Proof.
  unfold mbind, M_mbind, M_bind, mret, M_mret, M_ret.
  by destruct (f x s).
Qed.

Lemma run_lift_Ok (x : A) f s : (lift (Ok x) ≫= f) s = f x s.
Proof. unfold mbind, M_mbind, M_bind, lift. by destruct (f x s). Qed.

Lemma run_lift_Revert e f s : (lift (Revert e) ≫= f) s = ([], Revert e).
Proof. reflexivity. Qed.

Lemma run_gets (g : State → A) f s : (gets g ≫= f) s = f (g s) s.
Proof. unfold mbind, M_mbind, M_bind, gets. by destruct (f (g s) s). Qed.

Lemma run_require_true e k s : (require true e ;; k) s = k s.
Proof. unfold mbind, M_mbind, M_bind, require, lift. by destruct (k s). Qed.

Lemma run_require_false e k s : (require false e ;; k) s = ([], Revert e).
Proof. reflexivity. Qed.

Lemma run_modify (g : State → State) k s : (modify g ;; k) s = k (g s).
Proof. unfold mbind, M_mbind, M_bind, modify. by destruct (k (g s)). Qed.

Lemma run_emit ev k s :
  (emit ev ;; k) s = (ev :: (k s).1, (k s).2).
Proof. unfold mbind, M_mbind, M_bind, emit. by destruct (k s). Qed.

Lemma run_safeTransfer recipient amount k s :
  (safeTransfer recipient amount ;; k) s =
    match Ledger.transfer recipient amount (token s) with
    | Ok t' => (CallTransfer recipient amount (allocations s) :: (k (set_token t' s)).1,
                (k (set_token t' s)).2)
    | Revert e => ([CallTransfer recipient amount (allocations s)], Revert e)
    end.
Proof.
  unfold mbind, M_mbind, M_bind, safeTransfer.
  destruct (Ledger.transfer _ _ _); [|done]. by destruct (k _).
Qed.

Lemma run_safeTransferFrom holder amount k s :
  (safeTransferFrom holder amount ;; k) s =
    match Ledger.transferFrom holder amount (token s) with
    | Ok t' => (CallTransferFrom holder amount (allocations s) :: (k (set_token t' s)).1,
                (k (set_token t' s)).2)
    | Revert e => ([CallTransferFrom holder amount (allocations s)], Revert e)
    end.
Proof.
  unfold mbind, M_mbind, M_bind, safeTransferFrom.
  destruct (Ledger.transferFrom _ _ _); [|done]. by destruct (k _).
Qed.

End Steps.

Lemma run_load {B} beneficiary index (f : Allocation → M B) s :
  (load beneficiary index ≫= f) s =
    match allocs s beneficiary !! Z.to_nat index with
    | Some a => f a s
    | None => ([], Revert ArrayOutOfBounds)
    end.
Proof.
  unfold mbind, M_mbind, M_bind, load.
  destruct (allocs s beneficiary !! Z.to_nat index); [|done]. by destruct (f _ s).
Qed.

Lemma run_emit_last ev s : emit ev s = ([ev], Ok ((), s)).
Proof. reflexivity. Qed.

Lemma run_bind_assoc {A B C} (m : M A) (f : A → M B) (g : B → M C) s :
  ((m ≫= f) ≫= g) s = (m ≫= (λ x, f x ≫= g)) s.
Proof.
  unfold mbind, M_mbind, M_bind.
  destruct (m s) as [es [[x s1]|e]]; [|done].
  destruct (f x s1) as [es1 [[y s2]|e]]; [|done].
  destruct (g y s2) as [es2 r]. by rewrite app_assoc.
Qed.

(** Storage accessors *)

Lemma allocs_set_allocs_eq b l s : allocs (set_allocs b l s) b = l.
Proof. unfold allocs, set_allocs. simpl. by rewrite lookup_insert_eq. Qed.

Lemma allocs_set_allocs_ne b b' l s :
  b ≠ b' → allocs (set_allocs b l s) b' = allocs s b'.
Proof. intros. unfold allocs, set_allocs. simpl. by rewrite lookup_insert_ne. Qed.

Lemma allocs_set_token t s b : allocs (set_token t s) b = allocs s b.
Proof. reflexivity. Qed.

Lemma transfer_Ok recipient amount t :
  amount ≤ Ledger.custodied t →
  Ledger.transfer recipient amount t =
    Ok (Ledger.mk (Ledger.custodied t - amount)
          (<[recipient := Ledger.balanceOf t recipient + amount]> (Ledger.holdings t))
          (Ledger.approved t)).
Proof. intros H. unfold Ledger.transfer. by rewrite (proj2 (Z.leb_le _ _) H). Qed.

Lemma transfer_inv recipient amount t t' :
  Ledger.transfer recipient amount t = Ok t' →
  amount ≤ Ledger.custodied t
  ∧ Ledger.custodied t' = Ledger.custodied t - amount
  ∧ Ledger.balanceOf t' recipient = Ledger.balanceOf t recipient + amount.
Proof.
  unfold Ledger.transfer. destruct (Z.leb_spec amount (Ledger.custodied t)); [|done].
  intros [= <-]. repeat split; [done|].
  unfold Ledger.balanceOf at 1. simpl. by rewrite lookup_insert_eq.
Qed.

Lemma transferFrom_inv holder amount t t' :
  Ledger.transferFrom holder amount t = Ok t' →
  amount ≤ Ledger.allowance t holder ∧ amount ≤ Ledger.balanceOf t holder
  ∧ Ledger.custodied t' = Ledger.custodied t + amount
  ∧ Ledger.balanceOf t' holder = Ledger.balanceOf t holder - amount.
Proof.
  unfold Ledger.transferFrom.
  destruct (Z.leb_spec amount (Ledger.allowance t holder)); [|done].
  destruct (Z.leb_spec amount (Ledger.balanceOf t holder)); [|done].
  intros [= <-]. repeat split; [done..|].
  unfold Ledger.balanceOf at 1. simpl. by rewrite lookup_insert_eq.
Qed.

Ltac mstep :=
  first
    [ rewrite run_gets | rewrite run_require_true | rewrite run_require_false
    | rewrite run_lift_Ok | rewrite run_lift_Revert | rewrite run_modify
    | rewrite run_load | rewrite run_safeTransfer | rewrite run_safeTransferFrom
    | rewrite run_emit | rewrite run_ret | rewrite run_emit_last
    | rewrite run_bind_assoc ].

Ltac msteps := repeat (first [mstep | safemath_step]).

(** ** [release] *)

Lemma releasable_range now a amount :
  wf_allocation a = true → 0 ≤ now →
  _releasableAmount now a = Ok amount →
  0 ≤ amount ∧ claimed a + amount ≤ total a.
Proof.
  intros Hwf Hn. unfold _releasableAmount.
  destruct (_vestedAmount now a) as [v|] eqn:Ev; [|done]. rewrite bind_Ok.
  intros [-> ?]%sub_inv. apply vested_range in Ev; [lia|done..].
Qed.

Lemma release_out_of_range env b i s :
  Z.of_nat (length (allocs s b)) ≤ i →
  release env b i s = ([], Revert IndexOutOfRange).
Proof. intros. unfold release, array_length. by msteps. Qed.

Lemma release_reverts_early env b i s a e :
  0 ≤ i → allocs s b !! Z.to_nat i = Some a →
  _releasableAmount (block_timestamp env) a = Revert e →
  release env b i s = ([], Revert e).
Proof.
  intros Hi Hl He. pose proof (lookup_lt_Some _ _ _ Hl).
  unfold release, array_length. msteps. rewrite Hl, He. by msteps.
Qed.

Lemma release_nothing env b i s a :
  0 ≤ i → allocs s b !! Z.to_nat i = Some a →
  _releasableAmount (block_timestamp env) a = Ok 0 →
  release env b i s = ([], Revert NothingToRelease).
Proof.
  intros Hi Hl He. pose proof (lookup_lt_Some _ _ _ Hl).
  unfold release, array_length. msteps. rewrite Hl, He. by msteps.
Qed.

Lemma release_Ok env b i s a amount :
  wf_allocation a = true → 0 ≤ block_timestamp env →
  0 ≤ i → allocs s b !! Z.to_nat i = Some a →
  _releasableAmount (block_timestamp env) a = Ok amount → 0 < amount →
  amount ≤ Ledger.custodied (token s) →
  ∃ t',
    Ledger.transfer b amount (token s) = Ok t' ∧
    release env b i s =
      ([CallTransfer b amount
          (<[b := <[Z.to_nat i := released amount a]> (allocs s b)]> (allocations s));
        Released b amount (total a - (claimed a + amount))],
       Ok ((), set_token t'
                 (set_allocs b (<[Z.to_nat i := released amount a]> (allocs s b)) s))).
Proof.
  intros Hwf Hn Hi Hl He Hpos Hcust. pose proof (lookup_lt_Some _ _ _ Hl) as Hlen.
  destruct (releasable_range _ _ _ Hwf Hn He) as [_ Hle].
  pose proof (proj1 (wf_allocation_spec a) Hwf) as (_ & _ & _ & Ht & Hc & _).
  eexists. split; [by apply transfer_Ok|].
  unfold release, array_length, store. msteps. rewrite Hl, He. msteps.
  simpl. rewrite transfer_Ok by done. msteps.
  rewrite allocs_set_token, allocs_set_allocs_eq.
  rewrite list_lookup_insert_eq by done. simpl. msteps. simpl.
  done.
Qed.

Lemma release_Ok_inv env b i s es u s' :
  release env b i s = (es, Ok (u, s')) →
  ∃ a amount t',
    allocs s b !! Z.to_nat i = Some a
    ∧ i < Z.of_nat (length (allocs s b))
    ∧ _releasableAmount (block_timestamp env) a = Ok amount
    ∧ 0 < amount
    ∧ Ledger.transfer b amount (token s) = Ok t'
    ∧ s' = set_token t'
             (set_allocs b (<[Z.to_nat i := released amount a]> (allocs s b)) s)
    ∧ es = [CallTransfer b amount
              (<[b := <[Z.to_nat i := released amount a]> (allocs s b)]> (allocations s));
            Released b amount (total a - (claimed a + amount))].
Proof.
  unfold release, array_length, store.
  destruct (Z.ltb_spec i (Z.of_nat (length (allocs s b)))) as [Hlen|Hlen];
    msteps; [|done].
  destruct (allocs s b !! Z.to_nat i) as [a|] eqn:Hl; [|done].
  destruct (_releasableAmount (block_timestamp env) a) as [amount|] eqn:He;
    msteps; [|done].
  destruct (Z.ltb_spec 0 amount) as [Hpos|Hpos]; msteps; [|done].
  destruct (SafeMath.add (claimed a) amount) as [c|] eqn:Hc; msteps; [|done].
  apply add_inv in Hc as [-> Hc]. simpl.
  destruct (Ledger.transfer b amount (token s)) as [t'|] eqn:Ht; [|done].
  msteps. rewrite allocs_set_token, allocs_set_allocs_eq.
  rewrite list_lookup_insert_eq by (by apply lookup_lt_Some in Hl). simpl.
  destruct (SafeMath.sub (total a) (claimed a + amount)) as [r|] eqn:Hr;
    msteps; [|done].
  apply sub_inv in Hr as [-> Hr]. simpl. intros [= <- <-].
  by exists a, amount, t'.
Qed.

(** A release changes neither the length of the beneficiary's array nor any
    other beneficiary's array. *)
Lemma release_Ok_length env b i s es u s' :
  release env b i s = (es, Ok (u, s')) →
  length (allocs s' b) = length (allocs s b).
Proof.
  intros (a & amount & t' & _ & _ & _ & _ & _ & -> & _)%release_Ok_inv.
  by rewrite allocs_set_token, allocs_set_allocs_eq, length_insert.
Qed.

Lemma release_Ok_other_index env b i s es u s' j :
  release env b i s = (es, Ok (u, s')) → j ≠ Z.to_nat i →
  allocs s' b !! j = allocs s b !! j.
Proof.
  intros (a & amount & t' & _ & _ & _ & _ & _ & -> & _)%release_Ok_inv Hj.
  rewrite allocs_set_token, allocs_set_allocs_eq.
  by rewrite list_lookup_insert_ne.
Qed.

Lemma release_Ok_other_beneficiary env b i s es u s' b' :
  release env b i s = (es, Ok (u, s')) → b ≠ b' →
  allocs s' b' = allocs s b'.
Proof.
  intros (a & amount & t' & _ & _ & _ & _ & _ & -> & _)%release_Ok_inv Hb.
  by rewrite allocs_set_token, allocs_set_allocs_ne.
Qed.

(** ** [issue] *)

Lemma issue_Ok env b amount startAt c d pct s :
  owner s = msg_sender env →
  amount ≤ Ledger.allowance (token s) (msg_sender env) →
  amount ≤ Ledger.balanceOf (token s) (msg_sender env) →
  b ≠ 0 → c ≤ d → pct ≤ 100 → amount * pct ≤ MAX_UINT256 →
  ∃ t',
    Ledger.transferFrom (msg_sender env) amount (token s) = Ok t' ∧
    Ledger.custodied t' = Ledger.custodied (token s) + amount ∧
    issue env b amount startAt c d pct s =
      ([CallTransferFrom (msg_sender env) amount (allocations s);
        Issued b amount startAt c d],
       Ok ((), set_allocs b
                 (allocs s b ++ [mkAllocation startAt c d amount 0 (amount * pct / 100)])
                 (set_token t' s))).
Proof.
  intros Ho Hal Hbal Hb Hcd Hpct Hmul.
  assert (Ledger.transferFrom (msg_sender env) amount (token s) =
          Ok (Ledger.mk (Ledger.custodied (token s) + amount)
                (<[msg_sender env := Ledger.balanceOf (token s) (msg_sender env) - amount]>
                   (Ledger.holdings (token s)))
                (<[msg_sender env := Ledger.allowance (token s) (msg_sender env) - amount]>
                   (Ledger.approved (token s))))) as Ht.
  { unfold Ledger.transferFrom. by safemath. }
  eexists. split; [exact Ht|]. split; [done|].
  unfold issue, onlyOwner, token_allowance, push.
  rewrite run_bind_assoc. msteps. simpl. msteps.
  rewrite Ht. by msteps.
Qed.

Lemma issue_Ok_inv env b amount startAt c d pct s es u s' :
  issue env b amount startAt c d pct s = (es, Ok (u, s')) →
  owner s = msg_sender env
  ∧ amount ≤ Ledger.allowance (token s) (msg_sender env)
  ∧ b ≠ 0 ∧ c ≤ d ∧ pct ≤ 100 ∧ amount * pct ≤ MAX_UINT256
  ∧ ∃ t',
      Ledger.transferFrom (msg_sender env) amount (token s) = Ok t'
      ∧ s' = set_allocs b
               (allocs s b ++ [mkAllocation startAt c d amount 0 (amount * pct / 100)])
               (set_token t' s)
      ∧ es = [CallTransferFrom (msg_sender env) amount (allocations s);
              Issued b amount startAt c d].
Proof.
  unfold issue, onlyOwner, token_allowance, push. rewrite run_bind_assoc.
  destruct (Z.eqb_spec (owner s) (msg_sender env)) as [Ho|Ho]; msteps; [|done].
  destruct (Z.leb_spec amount (Ledger.allowance (token s) (msg_sender env)));
    msteps; [|done].
  destruct (Z.eqb_spec b 0) as [Hb|Hb]; msteps; simpl; msteps; [done|].
  destruct (Z.leb_spec c d); msteps; [|done].
  destruct (Z.leb_spec pct 100); msteps; [|done].
  destruct (Ledger.transferFrom (msg_sender env) amount (token s)) as [t'|] eqn:Ht;
    [|done].
  destruct (Z.leb_spec (amount * pct) MAX_UINT256); msteps; [|done].
  simpl. intros [= <- <-]. repeat split; try done. by exists t'.
Qed.

(** Every failed validation rejects before anything is done. *)
Lemma issue_rejects env b amount startAt c d pct s :
  owner s ≠ msg_sender env
  ∨ Ledger.allowance (token s) (msg_sender env) < amount
  ∨ b = 0 ∨ d < c ∨ 100 < pct →
  ∃ e, issue env b amount startAt c d pct s = ([], Revert e)
       ∧ (e = NotOwner ∨ e = AllowanceNotSufficient ∨ e = ZeroAddressBeneficiary
          ∨ e = CliffExceedsDuration ∨ e = BadInitialPct).
Proof.
  intros Hbad.
  unfold issue, onlyOwner, token_allowance, push. rewrite run_bind_assoc.
  destruct (Z.eqb_spec (owner s) (msg_sender env)) as [Ho|Ho]; msteps;
    [|eexists; split; [done|auto]].
  destruct (Z.leb_spec amount (Ledger.allowance (token s) (msg_sender env)));
    msteps; [|eexists; split; [done|auto]].
  destruct (Z.eqb_spec b 0) as [Hb|Hb]; msteps; simpl; msteps;
    [eexists; split; [done|auto]|].
  destruct (Z.leb_spec c d); msteps; [|eexists; split; [done|auto 6]].
  destruct (Z.leb_spec pct 100); msteps; [|eexists; split; [done|auto 6]].
  exfalso. destruct Hbad as [?|[?|[?|[?|?]]]]; (done || lia).
Qed.

(** ** Swap-and-pop removal and the outstanding amount *)

Lemma swap_pop_snoc i (l : list Allocation) x :
  swap_pop i (l ++ [x]) = if decide (i = length l) then l else <[i := x]> l.
Proof.
  unfold swap_pop. rewrite length_app. simpl.
  replace (pred (length l + 1)) with (length l) by lia.
  rewrite list_lookup_middle by done.
  destruct (decide (i = length l)) as [->|Hne]; [apply removelast_last|].
  destruct (decide (i < length l)%nat).
  - rewrite insert_app_l by done. apply removelast_last.
  - rewrite !list_insert_ge by (rewrite ?length_app; simpl; lia).
    apply removelast_last.
Qed.

Lemma snoc_cases (l : list Allocation) :
  l = [] ∨ ∃ l0 x, l = l0 ++ [x].
Proof. destruct l using rev_ind; [by left | right; eauto]. Qed.

Lemma swap_pop_length i (l : list Allocation) :
  (i < length l)%nat → length (swap_pop i l) = pred (length l).
Proof.
  destruct (snoc_cases l) as [->|(l0 & x & ->)]; [simpl; lia|].
  rewrite swap_pop_snoc, length_app. simpl. intros Hi.
  case_decide; rewrite ?length_insert; lia.
Qed.

Lemma swap_pop_lookup_other i j (l : list Allocation) :
  (j < pred (length l))%nat → j ≠ i → swap_pop i l !! j = l !! j.
Proof.
  destruct (snoc_cases l) as [->|(l0 & x & ->)]; [simpl; lia|].
  rewrite swap_pop_snoc, length_app. simpl. intros Hj Hne.
  rewrite lookup_app_l by lia.
  case_decide; [done|]. by rewrite list_lookup_insert_ne.
Qed.

Lemma swap_pop_lookup_moved i (l : list Allocation) :
  (i < pred (length l))%nat → swap_pop i l !! i = l !! pred (length l).
Proof.
  destruct (snoc_cases l) as [->|(l0 & x & ->)]; [simpl; lia|].
  rewrite swap_pop_snoc, length_app. simpl. intros Hi.
  replace (pred (length l0 + 1)) with (length l0) by lia.
  rewrite list_lookup_middle by done.
  case_decide; [lia|]. rewrite list_lookup_insert_eq by lia. done.
Qed.

Lemma swap_pop_Forall (P : Allocation → Prop) i l :
  Forall P l → Forall P (swap_pop i l).
Proof.
  destruct (snoc_cases l) as [->|(l0 & x & ->)];
    [intros _; unfold swap_pop; simpl; by case_decide|].
  rewrite swap_pop_snoc. intros [H0 Hx]%Forall_app.
  apply Forall_inv in Hx.
  case_decide; [done|]. by apply Forall_insert.
Qed.

Lemma outstanding_app l1 l2 :
  outstanding (l1 ++ l2) = outstanding l1 + outstanding l2.
Proof. induction l1 as [|a l1 IH]; simpl; [done|]. rewrite IH. lia. Qed.

Lemma outstanding_insert l i a a' :
  l !! i = Some a →
  outstanding (<[i := a']> l) =
    outstanding l - (total a - claimed a) + (total a' - claimed a').
Proof.
  revert i. induction l as [|x l IH]; intros [|i] Hl; simpl in *; try done.
  - injection Hl as ->. lia.
  - rewrite (IH i Hl). lia.
Qed.

Lemma outstanding_swap_pop i l a :
  l !! i = Some a →
  outstanding (swap_pop i l) = outstanding l - (total a - claimed a).
Proof.
  destruct (snoc_cases l) as [->|(l0 & x & ->)]; [done|].
  rewrite swap_pop_snoc, outstanding_app. simpl. intros Hl.
  case_decide as Hi.
  - subst i. rewrite list_lookup_middle in Hl by done. injection Hl as <-. lia.
  - assert (i < length l0)%nat.
    { apply lookup_lt_Some in Hl. rewrite length_app in Hl. simpl in Hl. lia. }
    rewrite lookup_app_l in Hl by done.
    rewrite (outstanding_insert _ _ _ _ Hl). lia.
Qed.

Lemma outstanding_nonneg l :
  Forall alloc_inv l → 0 ≤ outstanding l.
Proof.
  induction 1 as [|a l (_ & Ha) _ IH]; simpl; lia.
Qed.

Lemma outstanding_lookup_le l i a :
  Forall alloc_inv l → l !! i = Some a → total a - claimed a ≤ outstanding l.
Proof.
  intros Hl. revert i. induction Hl as [|x l (_ & Hx) Hl IH]; intros [|i] Hi;
    simpl in *; try done.
  - injection Hi as ->. pose proof (outstanding_nonneg l Hl). lia.
  - specialize (IH i Hi). lia.
Qed.

(** The sum over all beneficiaries, after one beneficiary's array changed. *)
Lemma total_outstanding_insert (m : gmap Z (list Allocation)) b l :
  total_outstanding (<[b := l]> m) =
    total_outstanding m - outstanding (default [] (m !! b)) + outstanding l.
Proof.
  unfold total_outstanding.
  assert (∀ (j1 j2 : Z) (z1 z2 : list Allocation) (y : Z),
            outstanding z1 + (outstanding z2 + y) =
            outstanding z2 + (outstanding z1 + y)) as Hcomm by (intros; lia).
  destruct (m !! b) as [l0|] eqn:Hb; simpl.
  - rewrite <- (insert_delete_eq m).
    rewrite (map_fold_delete_L _ _ b l0 m); [|intros; apply Hcomm; done|done].
    rewrite map_fold_insert_L; [lia|intros; apply Hcomm; done|].
    apply lookup_delete_eq.
  - rewrite map_fold_insert_L; [lia|intros; apply Hcomm; done|done].
Qed.

Lemma total_outstanding_empty : total_outstanding ∅ = 0.
Proof. unfold total_outstanding. apply map_fold_empty. Qed.

Lemma total_outstanding_set_allocs b l s :
  total_outstanding (allocations (set_allocs b l s)) =
    total_outstanding (allocations s) - outstanding (allocs s b) + outstanding l.
Proof. unfold set_allocs, allocs. simpl. apply total_outstanding_insert. Qed.

(** ** [revoke] *)

Lemma set_allocs_twice b l1 l2 s :
  set_allocs b l2 (set_allocs b l1 s) = set_allocs b l2 s.
Proof. unfold set_allocs. simpl. by rewrite insert_insert_eq. Qed.

(** The two storage writes of [revoke] amount to [swap_pop]. *)
Lemma revoke_removal b i s (k : M unit) :
  0 ≤ i < Z.of_nat (length (allocs s b)) →
  ((if negb (i =? Z.of_nat (length (allocs s b)) - 1)
    then (lastOne ← load b (Z.of_nat (length (allocs s b)) - 1); store b i lastOne)
    else mret ());; pop b;; k) s
  = k (set_allocs b (swap_pop (Z.to_nat i) (allocs s b)) s).
Proof.
  intros Hi. unfold swap_pop, pop, store.
  replace (Z.to_nat (Z.of_nat (length (allocs s b)) - 1))
    with (pred (length (allocs s b))) by lia.
  destruct (Z.eqb_spec i (Z.of_nat (length (allocs s b)) - 1)) as [->|Hne]; simpl.
  - rewrite run_ret, run_modify.
    rewrite decide_True by lia. done.
  - rewrite run_bind_assoc, run_load.
    replace (Z.to_nat (Z.of_nat (length (allocs s b)) - 1))
      with (pred (length (allocs s b))) by lia.
    rewrite decide_False by lia.
    destruct (lookup_lt_is_Some_2 (allocs s b) (pred (length (allocs s b))))
      as [x Hx]; [lia|].
    rewrite Hx. rewrite !run_modify.
    by rewrite allocs_set_allocs_eq, set_allocs_twice.
Qed.

Lemma revoke_Ok env b i s a :
  owner s = msg_sender env →
  0 ≤ i → allocs s b !! Z.to_nat i = Some a →
  claimed a ≤ total a →
  total a - claimed a ≤ Ledger.custodied (token s) →
  ∃ t',
    Ledger.transfer (msg_sender env) (total a - claimed a) (token s) = Ok t' ∧
    revoke env b i s =
      ([CallTransfer (msg_sender env) (total a - claimed a)
          (<[b := swap_pop (Z.to_nat i) (allocs s b)]> (allocations s));
        Revoked b (total a) (total a - claimed a)],
       Ok ((), set_token t' (set_allocs b (swap_pop (Z.to_nat i) (allocs s b)) s))).
Proof.
  intros Ho Hi Hl Hc Hcust. pose proof (lookup_lt_Some _ _ _ Hl) as Hlen.
  eexists. split; [by apply transfer_Ok|].
  unfold revoke, onlyOwner, array_length. rewrite run_bind_assoc. msteps.
  rewrite Hl. msteps. rewrite revoke_removal by lia.
  msteps. simpl. rewrite transfer_Ok by done. by msteps.
Qed.

Lemma revoke_Ok_inv env b i s es u s' :
  0 ≤ i → revoke env b i s = (es, Ok (u, s')) →
  ∃ a t',
    owner s = msg_sender env
    ∧ allocs s b !! Z.to_nat i = Some a
    ∧ claimed a ≤ total a
    ∧ Ledger.transfer (msg_sender env) (total a - claimed a) (token s) = Ok t'
    ∧ s' = set_token t' (set_allocs b (swap_pop (Z.to_nat i) (allocs s b)) s)
    ∧ es = [CallTransfer (msg_sender env) (total a - claimed a)
              (<[b := swap_pop (Z.to_nat i) (allocs s b)]> (allocations s));
            Revoked b (total a) (total a - claimed a)].
Proof.
  intros Hi. unfold revoke, onlyOwner, array_length. rewrite run_bind_assoc.
  destruct (Z.eqb_spec (owner s) (msg_sender env)) as [Ho|Ho]; msteps; [|done].
  destruct (Z.ltb_spec i (Z.of_nat (length (allocs s b)))) as [Hlen|Hlen];
    msteps; [|done].
  destruct (allocs s b !! Z.to_nat i) as [a|] eqn:Hl; [|done].
  destruct (Z.leb_spec (claimed a) (total a)); msteps; [|done].
  rewrite revoke_removal by lia. msteps. simpl.
  destruct (Ledger.transfer _ _ (token s)) as [t'|] eqn:Ht; [|done].
  msteps. simpl. intros [= <- <-]. by exists a, t'.
Qed.

Lemma revoke_out_of_range env b i s :
  owner s = msg_sender env → Z.of_nat (length (allocs s b)) ≤ i →
  revoke env b i s = ([], Revert IndexOutOfRange).
Proof.
  intros Ho Hi. unfold revoke, onlyOwner, array_length. rewrite run_bind_assoc.
  by msteps.
Qed.

(** ** The loop of [releaseAll] *)

Lemma run_seq_Ok_inv {B} (m : M unit) (k : M B) s es u s' :
  (m ;; k) s = (es, Ok (u, s')) →
  ∃ es1 s1 es2,
    m s = (es1, Ok ((), s1)) ∧ k s1 = (es2, Ok (u, s')) ∧ es = es1 ++ es2.
Proof.
  unfold mbind, M_mbind, M_bind.
  destruct (m s) as [es1 [[[] s1]|e]]; [|done].
  destruct (k s1) as [es2 r] eqn:Hk. intros [= <- ->]. by exists es1, s1, es2.
Qed.

Lemma run_seq_Ok {B} (m : M unit) (k : M B) s es1 s1 :
  m s = (es1, Ok ((), s1)) →
  (m ;; k) s = (es1 ++ (k s1).1, (k s1).2).
Proof.
  intros Hm. unfold mbind, M_mbind, M_bind. rewrite Hm. by destruct (k s1).
Qed.

Lemma run_seq_Revert {B} (m : M unit) (k : M B) s es1 e :
  m s = (es1, Revert e) → (m ;; k) s = (es1, Revert e).
Proof. intros Hm. unfold mbind, M_mbind, M_bind. by rewrite Hm. Qed.

Lemma loop_done fuel env b i s :
  Z.of_nat (length (allocs s b)) ≤ i →
  releaseAll_loop fuel env b i s = ([], Ok ((), s)).
Proof. intros Hi. destruct fuel; simpl; unfold array_length; by msteps. Qed.

Lemma loop_next fuel env b i s :
  i < Z.of_nat (length (allocs s b)) →
  releaseAll_loop (S fuel) env b i s =
    (release env b i;; releaseAll_loop fuel env b (i + 1)) s.
Proof. intros Hi. simpl. unfold array_length. by msteps. Qed.

Lemma loop_no_fuel env b i s :
  i < Z.of_nat (length (allocs s b)) →
  releaseAll_loop 0 env b i s = ([], Revert OutOfFuel).
Proof. intros Hi. simpl. unfold array_length. by msteps. Qed.

(** Whatever successful releases preserve, the loop preserves. *)
Lemma loop_preserves (P : State → Prop) env b :
  (∀ i s es u s', 0 ≤ i → P s → release env b i s = (es, Ok (u, s')) → P s') →
  ∀ fuel i s es u s',
    0 ≤ i → P s → releaseAll_loop fuel env b i s = (es, Ok (u, s')) → P s'.
Proof.
  intros Hrel. induction fuel as [|fuel IH]; intros i s es u s' Hi HP.
  - destruct (Z.lt_ge_cases i (Z.of_nat (length (allocs s b)))).
    + by rewrite loop_no_fuel.
    + rewrite loop_done by done. intros ?. by simplify_eq.
  - destruct (Z.lt_ge_cases i (Z.of_nat (length (allocs s b)))).
    + rewrite loop_next by done.
      intros (es1 & s1 & es2 & H1 & H2 & _)%run_seq_Ok_inv.
      eapply IH; [| |exact H2]; [lia|]. eapply Hrel; [exact Hi|exact HP|exact H1].
    + rewrite loop_done by done. intros ?. by simplify_eq.
Qed.

Lemma releaseAll_preserves (P : State → Prop) env b :
  (∀ i s es u s', 0 ≤ i → P s → release env b i s = (es, Ok (u, s')) → P s') →
  ∀ s es u s', P s → releaseAll env b s = (es, Ok (u, s')) → P s'.
Proof.
  intros Hrel s es u s' HP. unfold releaseAll. rewrite run_gets.
  by apply loop_preserves.
Qed.

(** ** Invariants *)

Lemma release_preserves_bounded env b i s es u s' :
  0 ≤ block_timestamp env →
  bounded_store s → release env b i s = (es, Ok (u, s')) → bounded_store s'.
Proof.
  intros Hn Hs (a & amount & t' & Hl & _ & He & Hpos & _ & -> & _)%release_Ok_inv b'.
  rewrite allocs_set_token.
  destruct (decide (b = b')) as [<-|Hne]; [|by rewrite allocs_set_allocs_ne].
  rewrite allocs_set_allocs_eq. apply Forall_insert; [apply Hs|].
  pose proof (Hs b) as Hb. rewrite Forall_lookup in Hb.
  destruct (Hb _ _ Hl) as [Hwf Hc].
  destruct (releasable_range _ _ _ Hwf Hn He) as [? ?].
  pose proof (proj1 (wf_allocation_spec a) Hwf) as (? & ? & ? & ? & ? & ?).
  split; [|simpl; lia].
  apply wf_allocation_spec. simpl. repeat split; lia.
Qed.

Lemma release_preserves_custody env b i s es u s' :
  custody_matches s → release env b i s = (es, Ok (u, s')) → custody_matches s'.
Proof.
  unfold custody_matches.
  intros Hs (a & amount & t' & Hl & _ & He & Hpos & Ht & -> & _)%release_Ok_inv.
  apply transfer_inv in Ht as (_ & Ht & _). simpl. rewrite Ht.
  change (<[b:=?l]> (allocations s)) with (allocations (set_allocs b l s)).
  rewrite total_outstanding_set_allocs, (outstanding_insert _ _ _ _ Hl).
  simpl. lia.
Qed.

Lemma issue_preserves_bounded env b amount startAt c d pct s es u s' :
  wf_op (OpIssue b amount startAt c d pct) = true →
  bounded_store s →
  issue env b amount startAt c d pct s = (es, Ok (u, s')) → bounded_store s'.
Proof.
  intros Hop Hs (_ & _ & _ & _ & Hpct & Hmul & t' & _ & -> & _)%issue_Ok_inv b'.
  simpl in Hop. rewrite !andb_true_iff, !is_uint256_spec in Hop.
  destruct Hop as (((((_ & Ha) & Hst) & Hc) & Hd) & Hp).
  destruct (decide (b = b')) as [<-|Hne];
    [|rewrite allocs_set_allocs_ne by done; apply Hs].
  rewrite allocs_set_allocs_eq. apply Forall_app. split; [apply Hs|].
  apply Forall_singleton. split; [|simpl; lia].
  apply wf_allocation_spec. simpl. repeat split; try lia.
  - apply Z.div_pos; lia.
  - apply Z.div_le_upper_bound; lia.
Qed.

Lemma issue_preserves_custody env b amount startAt c d pct s es u s' :
  custody_matches s →
  issue env b amount startAt c d pct s = (es, Ok (u, s')) → custody_matches s'.
Proof.
  unfold custody_matches.
  intros Hs (_ & _ & _ & _ & _ & _ & t' & Ht & -> & _)%issue_Ok_inv.
  apply transferFrom_inv in Ht as (_ & _ & Ht & _).
  rewrite total_outstanding_set_allocs, outstanding_app. simpl.
  rewrite allocs_set_token, Ht. lia.
Qed.

Lemma revoke_preserves_bounded env b i s es u s' :
  0 ≤ i → bounded_store s → revoke env b i s = (es, Ok (u, s')) → bounded_store s'.
Proof.
  intros Hi Hs (a & t' & _ & _ & _ & _ & -> & _)%revoke_Ok_inv b'; [|done].
  rewrite allocs_set_token.
  destruct (decide (b = b')) as [<-|Hne]; [|by rewrite allocs_set_allocs_ne].
  rewrite allocs_set_allocs_eq. apply swap_pop_Forall, Hs.
Qed.

Lemma revoke_preserves_custody env b i s es u s' :
  0 ≤ i → custody_matches s → revoke env b i s = (es, Ok (u, s')) →
  custody_matches s'.
Proof.
  unfold custody_matches.
  intros Hi Hs (a & t' & _ & Hl & _ & Ht & -> & _)%revoke_Ok_inv; [|done].
  apply transfer_inv in Ht as (_ & Ht & _). simpl. rewrite Ht.
  change (<[b:=?l]> (allocations s)) with (allocations (set_allocs b l s)).
  rewrite total_outstanding_set_allocs, (outstanding_swap_pop _ _ _ Hl). lia.
Qed.

Lemma run_preserves_bounded env op s es u s' :
  wf_env env = true → wf_op op = true →
  bounded_store s → run env op s = (es, Ok (u, s')) → bounded_store s'.
Proof.
  intros Henv Hop Hs.
  unfold wf_env in Henv. rewrite andb_true_iff, is_uint256_spec in Henv.
  destruct Henv as [_ [Hn _]].
  destruct op as [b amount startAt c d pct|b i|b|b i]; simpl.
  - by apply issue_preserves_bounded.
  - by apply release_preserves_bounded.
  - apply (releaseAll_preserves bounded_store); [|done].
    intros i s0 es0 u0 s0' _. by apply release_preserves_bounded.
  - simpl in Hop. rewrite andb_true_iff, is_uint256_spec in Hop.
    apply revoke_preserves_bounded; [lia|done].
Qed.

Lemma run_preserves_custody env op s es u s' :
  wf_op op = true →
  custody_matches s → run env op s = (es, Ok (u, s')) → custody_matches s'.
Proof.
  intros Hop Hs.
  destruct op as [b amount startAt c d pct|b i|b|b i]; simpl.
  - by apply issue_preserves_custody.
  - by apply release_preserves_custody.
  - apply (releaseAll_preserves custody_matches); [|done].
    intros i s0 es0 u0 s0' _. by apply release_preserves_custody.
  - simpl in Hop. rewrite andb_true_iff, is_uint256_spec in Hop.
    apply revoke_preserves_custody; [lia|done].
Qed.

Lemma state_after_cases (m : M unit) s :
  (∃ es, m s = (es, Ok ((), state_after m s)))
  ∨ (state_after m s = s ∧ ∃ es e, m s = (es, Revert e)).
Proof.
  unfold state_after. destruct (m s) as [es [[[] s']|e]]; simpl; eauto.
Qed.

Lemma allocs_initial s b : initial_state s → allocs s b = [].
Proof. intros [He _]. unfold allocs. by rewrite He, lookup_empty. Qed.

Lemma reachable_bounded s : reachable s → bounded_store s.
Proof.
  induction 1 as [s Hinit|s env op s' _ IH Henv Hop ->].
  - intros b. by rewrite allocs_initial.
  - destruct (state_after_cases (run env op) s) as [[es Hrun]|[-> _]]; [|done].
    by eapply run_preserves_bounded.
Qed.

Lemma reachable_custody s : reachable s → custody_matches s.
Proof.
  induction 1 as [s [He Hc]|s env op s' _ IH Henv Hop ->].
  - unfold custody_matches. by rewrite He, Hc, total_outstanding_empty.
  - destruct (state_after_cases (run env op) s) as [[es Hrun]|[-> _]]; [|done].
    by eapply run_preserves_custody.
Qed.

Lemma fresh_vault_reachable : reachable fresh_vault.
Proof. apply reachable_init. by split. Qed.

Lemma one_grant_reachable : reachable one_grant.
Proof.
  apply (reachable_step fresh_vault (mkEnv 1 100) (OpIssue 7 30 102 0 10 0));
    [apply fresh_vault_reachable | reflexivity..].
Qed.

Lemma two_grants_reachable : reachable two_grants.
Proof.
  apply (reachable_step one_grant (mkEnv 1 100) (OpIssue 7 30 112 0 10 0));
    [apply one_grant_reachable | reflexivity..].
Qed.

Lemma after_release_reachable : reachable after_release.
Proof.
  apply (reachable_step two_grants (mkEnv 9 105) (OpRelease 7 0));
    [apply two_grants_reachable | reflexivity..].
Qed.

(** ** Claims about the stored state *)

(** C7: in every reachable state every stored allocation has
    [0 ≤ claimed ≤ total], and every operation that succeeds on a store with
    this property (and [uint256] fields) yields a store with it. *)
Theorem claimed_within_total :
  (∀ s b i a, reachable s → allocs s b !! i = Some a → 0 ≤ claimed a ≤ total a)
  ∧ (∀ s env op es s',
       wf_env env = true → wf_op op = true →
       (∀ b, Forall (λ a, wf_allocation a = true ∧ claimed a ≤ total a) (allocs s b)) →
       run env op s = (es, Ok ((), s')) →
       ∀ b i a, allocs s' b !! i = Some a → 0 ≤ claimed a ≤ total a).
Proof.
  assert (∀ s b (i : nat) a,
            bounded_store s → allocs s b !! i = Some a → 0 ≤ claimed a ≤ total a)
    as Hread.
  { intros s b i a Hs Hl. specialize (Hs b). rewrite Forall_lookup in Hs.
    destruct (Hs _ _ Hl) as [Hwf Hc].
    apply wf_allocation_spec in Hwf. lia. }
  split.
  - intros s b i a Hr. by apply Hread, reachable_bounded.
  - intros s env op es s' Henv Hop Hs Hrun b i a. apply Hread.
    by eapply run_preserves_bounded.
Qed.

Lemma claimed_within_total_witness :
  0 ≤ claimed (mkAllocation 102 0 10 30 9 0) ≤ total (mkAllocation 102 0 10 30 9 0).
Proof.
  destruct claimed_within_total as [H _].
  apply (H after_release 7 0%nat _ after_release_reachable).
  reflexivity.
Defined.

(** C9: in every reachable state the custody of the ledger, which [issue]
    increases by the amount pulled in and [release] and [revoke] decrease by
    the amount sent out, equals the sum of [total - claimed] over all stored
    allocations of all beneficiaries; every successful operation preserves
    the equality. *)
Theorem custody_equals_outstanding :
  (∀ s, reachable s →
        Ledger.custodied (token s) = total_outstanding (allocations s))
  ∧ (∀ s env op es s',
       wf_op op = true →
       Ledger.custodied (token s) = total_outstanding (allocations s) →
       run env op s = (es, Ok ((), s')) →
       Ledger.custodied (token s') = total_outstanding (allocations s')).
Proof.
  split.
  - intros s Hr. symmetry. by apply reachable_custody.
  - intros s env op es s' Hop Hs Hrun. symmetry.
    eapply (run_preserves_custody env op s); [done| |done]. done.
Qed.

Lemma custody_equals_outstanding_witness :
  Ledger.custodied (token after_release) = 51
  ∧ total_outstanding (allocations after_release) = 51.
Proof.
  destruct custody_equals_outstanding as [H _].
  split; [reflexivity|].
  rewrite <- (H after_release after_release_reachable). reflexivity.
Defined.

(** ** Outcomes, custody in reachable states, and rejections *)

Lemma outcome_of (m : M unit) s es r : m s = (es, r) →
  outcome m s = match r with Ok _ => Ok () | Revert e => Revert e end.
Proof. unfold outcome. by intros ->. Qed.

Lemma state_after_Ok (m : M unit) s es u s' :
  m s = (es, Ok (u, s')) → state_after m s = s'.
Proof. unfold state_after. by intros ->. Qed.

Lemma state_after_Revert (m : M unit) s es e :
  m s = (es, Revert e) → state_after m s = s.
Proof. unfold state_after. by intros ->. Qed.

Lemma effects_of_eq (m : M unit) s es r : m s = (es, r) → effects_of m s = es.
Proof. unfold effects_of. by intros ->. Qed.

Lemma total_outstanding_nonneg (m : gmap Z (list Allocation)) :
  (∀ b l, m !! b = Some l → 0 ≤ outstanding l) → 0 ≤ total_outstanding m.
Proof.
  induction m as [|b l m Hb IH] using map_ind; intros Hall.
  - by rewrite total_outstanding_empty.
  - rewrite total_outstanding_insert, Hb. simpl.
    pose proof (Hall b l (lookup_insert_eq _ _ _)).
    assert (0 ≤ total_outstanding m); [|lia].
    apply IH. intros b' l' Hl'. apply (Hall b').
    rewrite lookup_insert_ne; [done|]. intros ->. by rewrite Hb in Hl'.
Qed.

Lemma outstanding_le_total (m : gmap Z (list Allocation)) b l :
  (∀ b l, m !! b = Some l → 0 ≤ outstanding l) →
  m !! b = Some l → outstanding l ≤ total_outstanding m.
Proof.
  intros Hall Hb.
  assert (total_outstanding m = outstanding l + total_outstanding (delete b m))
    as ->.
  { unfold total_outstanding.
    rewrite (map_fold_delete_L _ _ b l m); [done| |done]. intros. lia. }
  assert (0 ≤ total_outstanding (delete b m)); [|lia].
  apply total_outstanding_nonneg. intros b' l' [_ Hl']%lookup_delete_Some.
  by apply (Hall b').
Qed.

(** In a reachable state the custody covers what any allocation still owes. *)
Lemma reachable_covers s b (i : nat) a :
  reachable s → allocs s b !! i = Some a →
  wf_allocation a = true ∧ claimed a ≤ total a
  ∧ total a - claimed a ≤ Ledger.custodied (token s).
Proof.
  intros Hr Hl. pose proof (reachable_bounded s Hr) as Hb.
  pose proof (reachable_custody s Hr) as Hc. unfold custody_matches in Hc.
  pose proof (Hb b) as Hall. rewrite Forall_lookup in Hall.
  destruct (Hall _ _ Hl) as [Hwf Hle]. repeat split; [done..|].
  rewrite <- Hc.
  pose proof (outstanding_lookup_le _ _ _ (Hb b) Hl) as Hout.
  assert (outstanding (allocs s b) ≤ total_outstanding (allocations s)); [|lia].
  unfold allocs in *.
  destruct (allocations s !! b) as [l|] eqn:Hm; simpl in *; [|done].
  apply (outstanding_le_total _ b); [|done].
  intros b' l' Hl'. apply outstanding_nonneg.
  pose proof (Hb b') as Hb'. unfold allocs in Hb'. by rewrite Hl' in Hb'.
Qed.

Lemma transfer_other recipient amount t t' who :
  Ledger.transfer recipient amount t = Ok t' → who ≠ recipient →
  Ledger.balanceOf t' who = Ledger.balanceOf t who.
Proof.
  unfold Ledger.transfer. case_match; [|done]. intros [= <-] Hne.
  unfold Ledger.balanceOf at 1. simpl. by rewrite lookup_insert_ne.
Qed.

Lemma transfer_Revert_inv recipient amount t e :
  Ledger.transfer recipient amount t = Revert e → e = TransferFailed.
Proof. unfold Ledger.transfer. case_match; [done|]. by intros [= <-]. Qed.

(** The calculator rejects only on overflow or underflow: the division is
    reached only after [now - start] has been formed, hence with
    [start ≤ now < start + duration] and a non-zero [duration]. *)
Lemma vested_error_inv now a e :
  _vestedAmount now a = Revert e → e = ArithmeticOverflow.
Proof.
  unfold _vestedAmount.
  destruct (Z.le_gt_cases (start a + cliff a) MAX_UINT256);
    safemath; [|by intros [= <-]].
  destruct (Z.lt_ge_cases now (start a + cliff a)); safemath; [done|].
  destruct (Z.le_gt_cases (start a + duration a) MAX_UINT256);
    safemath; [|by intros [= <-]].
  destruct (Z.le_gt_cases (start a + duration a) now); safemath; [done|].
  destruct (Z.le_gt_cases (initial a) (total a));
    safemath; [|by intros [= <-]].
  destruct (Z.le_gt_cases (start a) now); safemath; [|by intros [= <-]].
  destruct (Z.le_gt_cases ((total a - initial a - 0) * (now - start a)) MAX_UINT256);
    safemath; [|by intros [= <-]].
  unfold SafeMath.add. case_match; [done|]. by intros [= <-].
Qed.

Lemma releasable_error_inv now a e :
  _releasableAmount now a = Revert e → e = ArithmeticOverflow.
Proof.
  unfold _releasableAmount.
  destruct (_vestedAmount now a) as [v|e'] eqn:Ev.
  - rewrite bind_Ok. unfold SafeMath.sub. case_match; [done|]. by intros [= <-].
  - rewrite bind_Revert. intros [= <-]. by apply vested_error_inv in Ev.
Qed.

Lemma release_NothingToRelease_inv env b i s a es :
  wf_allocation a = true → 0 ≤ block_timestamp env →
  0 ≤ i → allocs s b !! Z.to_nat i = Some a →
  release env b i s = (es, Revert NothingToRelease) →
  _releasableAmount (block_timestamp env) a = Ok 0.
Proof.
  intros Hwf Hn Hi Hl. pose proof (lookup_lt_Some _ _ _ Hl) as Hlen.
  destruct (_releasableAmount (block_timestamp env) a) as [amount|e] eqn:He.
  - destruct (releasable_range _ _ _ Hwf Hn He) as [H0 Hle].
    destruct (decide (amount = 0)) as [->|Hne]; [done|].
    pose proof (proj1 (wf_allocation_spec a) Hwf) as (_ & _ & _ & Ht & Hc & _).
    unfold release, array_length, store. msteps. rewrite Hl, He. msteps. simpl.
    destruct (Ledger.transfer b amount (token s)) as [t'|e] eqn:Et.
    + msteps. rewrite allocs_set_token, allocs_set_allocs_eq.
      rewrite list_lookup_insert_eq by done. simpl. by msteps.
    + apply transfer_Revert_inv in Et as ->. done.
  - rewrite (release_reverts_early _ _ _ _ _ _ Hi Hl He).
    apply releasable_error_inv in He. intros ?. by simplify_eq.
Qed.

Lemma reachable_covers_beneficiary s b :
  reachable s → outstanding (allocs s b) ≤ Ledger.custodied (token s).
Proof.
  intros Hr. pose proof (reachable_bounded s Hr) as Hb.
  rewrite <- (reachable_custody s Hr).
  unfold allocs in *. destruct (allocations s !! b) as [l|] eqn:Hm; simpl.
  - apply (outstanding_le_total _ b); [|done].
    intros b' l' Hl'. apply outstanding_nonneg.
    pose proof (Hb b') as Hb'. unfold allocs in Hb'. by rewrite Hl' in Hb'.
  - apply total_outstanding_nonneg. intros b' l' Hl'. apply outstanding_nonneg.
    pose proof (Hb b') as Hb'. unfold allocs in Hb'. by rewrite Hl' in Hb'.
Qed.

(** In a reachable state a release at a valid index with a positive
    releasable amount always goes through: the custody covers it. *)
Corollary release_succeeds_when_reachable env b i s a amount :
  reachable s → wf_env env = true →
  0 ≤ i → allocs s b !! Z.to_nat i = Some a →
  _releasableAmount (block_timestamp env) a = Ok amount → 0 < amount →
  outcome (release env b i) s = Ok ().
Proof.
  intros Hr Henv Hi Hl He Hpos.
  unfold wf_env in Henv. rewrite andb_true_iff, is_uint256_spec in Henv.
  destruct Henv as [_ [Hn _]].
  destruct (reachable_covers s b _ a Hr Hl) as (Hwf & Hc & Hcust).
  destruct (releasable_range _ _ _ Hwf Hn He) as [_ Hle].
  destruct (release_Ok env b i s a amount) as (t' & _ & Hrel); [done..|lia|].
  by rewrite (outcome_of _ _ _ _ Hrel).
Qed.

(** A revoke by the owner at a valid index succeeds in every reachable
    state. *)
Corollary revoke_succeeds_when_reachable env b i s :
  reachable s → owner s = msg_sender env →
  0 ≤ i < Z.of_nat (length (allocs s b)) →
  outcome (revoke env b i) s = Ok ().
Proof.
  intros Hr Ho Hi.
  destruct (lookup_lt_is_Some_2 (allocs s b) (Z.to_nat i)) as [a Hl]; [lia|].
  destruct (reachable_covers s b _ a Hr Hl) as (_ & Hc & Hcust).
  destruct (revoke_Ok env b i s a) as (t' & _ & Hrev); [done|lia|done..|].
  by rewrite (outcome_of _ _ _ _ Hrev).
Qed.

(** ** Claims about the operations *)

(** C6: for a valid index, [release] fails with [NothingToRelease] exactly
    when the releasable amount is 0, and then nothing is transferred and the
    state is unchanged; when the releasable amount is positive the call
    succeeds, [claimed] grows by exactly that amount, the length of the
    beneficiary's array and every other allocation stay as they were, the
    amount moves from the vault's custody to the beneficiary, and the single
    external transfer is made on storage that already holds the increased
    [claimed]. *)
Theorem release_spec (env : Env) (b i : Z) (s : State) (a : Allocation) :
  wf_env env = true → wf_allocation a = true →
  0 ≤ i → allocs s b !! Z.to_nat i = Some a →
  let now := block_timestamp env in
  let s' := state_after (release env b i) s in
  (outcome (release env b i) s = Revert NothingToRelease
   ↔ _releasableAmount now a = Ok 0)
  ∧ (_releasableAmount now a = Ok 0 →
     s' = s ∧ effects_of (release env b i) s = [])
  ∧ (∀ amount,
       _releasableAmount now a = Ok amount → amount ≠ 0 →
       amount ≤ Ledger.custodied (token s) →
       outcome (release env b i) s = Ok ()
       ∧ allocs s' b !! Z.to_nat i = Some (with_claimed (claimed a + amount) a)
       ∧ length (allocs s' b) = length (allocs s b)
       ∧ (∀ j, j ≠ Z.to_nat i → allocs s' b !! j = allocs s b !! j)
       ∧ (∀ b', b' ≠ b → allocs s' b' = allocs s b')
       ∧ Ledger.custodied (token s') = Ledger.custodied (token s) - amount
       ∧ Ledger.balanceOf (token s') b = Ledger.balanceOf (token s) b + amount
       ∧ ∃ seen,
           effects_of (release env b i) s =
             [CallTransfer b amount seen;
              Released b amount (total a - (claimed a + amount))]
           ∧ seen !! b =
               Some (<[Z.to_nat i := with_claimed (claimed a + amount) a]> (allocs s b))).
Proof.
  intros Henv Hwf Hi Hl now s'.
  unfold wf_env in Henv. rewrite andb_true_iff, is_uint256_spec in Henv.
  destruct Henv as [_ [Hn _]]. pose proof (lookup_lt_Some _ _ _ Hl) as Hlen.
  split; [|split].
  - split.
    + unfold outcome. destruct (release env b i s) as [es [[u s1]|e]] eqn:Hrel;
        simpl; [done|]. intros [= ->].
      by eapply release_NothingToRelease_inv.
    + intros He. by rewrite (outcome_of _ _ _ _ (release_nothing _ _ _ _ _ Hi Hl He)).
  - intros He. pose proof (release_nothing _ _ _ _ _ Hi Hl He) as Hrel.
    split; [by eapply state_after_Revert | by eapply effects_of_eq].
  - intros amount He Hne Hcust.
    destruct (releasable_range _ _ _ Hwf Hn He) as [H0 _].
    destruct (release_Ok env b i s a amount) as (t' & Ht & Hrel);
      [done..|lia|done|].
    subst s'. rewrite (state_after_Ok _ _ _ _ _ Hrel).
    rewrite (outcome_of _ _ _ _ Hrel), (effects_of_eq _ _ _ _ Hrel).
    destruct (transfer_inv _ _ _ _ Ht) as (_ & Hc & Hb).
    rewrite allocs_set_token, allocs_set_allocs_eq.
    repeat split; try done.
    + by rewrite list_lookup_insert_eq.
    + by rewrite length_insert.
    + intros j Hj. by rewrite list_lookup_insert_ne.
    + intros b' Hb'. by rewrite allocs_set_token, allocs_set_allocs_ne.
    + eexists. split; [done|]. by rewrite lookup_insert_eq.
Qed.

Lemma release_spec_witness :
  outcome (release (mkEnv 9 105) 7 0) two_grants = Ok ()
  ∧ allocs (state_after (release (mkEnv 9 105) 7 0) two_grants) 7 !! 0%nat
    = Some (mkAllocation 102 0 10 30 9 0).
Proof.
  destruct (release_spec (mkEnv 9 105) 7 0 two_grants (mkAllocation 102 0 10 30 0 0))
    as (_ & _ & H); [reflexivity | reflexivity | lia | reflexivity |].
  destruct (H 9) as (H1 & H2 & _); [reflexivity | lia | by vm_compute |].
  split; [exact H1 | exact H2].
Defined.

(** C4: a [revoke] by the owner at a valid index computes
    [remainder = total - claimed] of the addressed allocation, whatever part
    of it has vested, removes the allocation by moving the last element into
    its place (unless it is the last) and shortening the array by one, and
    sends the whole remainder to the caller, nothing to the beneficiary; it
    succeeds also when the remainder is 0.  The two premises on the state
    hold in every reachable state ([reachable_covers]). *)
Theorem revoke_returns_remainder (env : Env) (b i : Z) (s : State) (a : Allocation) :
  owner s = msg_sender env →
  0 ≤ i → allocs s b !! Z.to_nat i = Some a →
  claimed a ≤ total a →
  total a - claimed a ≤ Ledger.custodied (token s) →
  let remainder := total a - claimed a in
  let s' := state_after (revoke env b i) s in
  let last := pred (length (allocs s b)) in
  outcome (revoke env b i) s = Ok ()
  ∧ length (allocs s' b) = last
  ∧ (∀ j, (j < last)%nat → j ≠ Z.to_nat i → allocs s' b !! j = allocs s b !! j)
  ∧ ((Z.to_nat i < last)%nat → allocs s' b !! Z.to_nat i = allocs s b !! last)
  ∧ (∀ b', b' ≠ b → allocs s' b' = allocs s b')
  ∧ Ledger.custodied (token s') = Ledger.custodied (token s) - remainder
  ∧ Ledger.balanceOf (token s') (msg_sender env)
    = Ledger.balanceOf (token s) (msg_sender env) + remainder
  ∧ (b ≠ msg_sender env →
     Ledger.balanceOf (token s') b = Ledger.balanceOf (token s) b)
  ∧ ∃ seen,
      effects_of (revoke env b i) s =
        [CallTransfer (msg_sender env) remainder seen;
         Revoked b (total a) remainder].
Proof.
  intros Ho Hi Hl Hc Hcust remainder s' last.
  pose proof (lookup_lt_Some _ _ _ Hl) as Hlen.
  destruct (revoke_Ok env b i s a) as (t' & Ht & Hrev); [done..|].
  subst s'. rewrite (state_after_Ok _ _ _ _ _ Hrev).
  rewrite (outcome_of _ _ _ _ Hrev), (effects_of_eq _ _ _ _ Hrev).
  destruct (transfer_inv _ _ _ _ Ht) as (_ & Hcu & Hb).
  rewrite allocs_set_token, allocs_set_allocs_eq.
  repeat split; try done.
  - by apply swap_pop_length.
  - intros j Hj Hne. by apply swap_pop_lookup_other.
  - intros Hlt. by apply swap_pop_lookup_moved.
  - intros b' Hb'. by rewrite allocs_set_token, allocs_set_allocs_ne.
  - intros Hne. by apply (transfer_other _ _ _ _ _ Ht).
  - by eexists.
Qed.

Lemma revoke_returns_remainder_witness :
  outcome (revoke (mkEnv 1 130) 7 0) all_released = Ok ()
  ∧ length (allocs (state_after (revoke (mkEnv 1 130) 7 0) all_released) 7) = 1%nat
  ∧ Ledger.custodied (token (state_after (revoke (mkEnv 1 130) 7 0) all_released))
    = Ledger.custodied (token all_released) - 0.
Proof.
  destruct (revoke_returns_remainder (mkEnv 1 130) 7 0 all_released
              (mkAllocation 102 0 10 30 30 0))
    as (H1 & H2 & _ & _ & _ & H3 & _);
    [reflexivity | lia | reflexivity | simpl; lia | by vm_compute |].
  split; [exact H1|]. split; [exact H2 | exact H3].
Defined.

(** C5: [issue] rejects, with the state unchanged and no transfer attempted,
    whenever a validation fails (allowance below the amount, zero
    beneficiary, cliff above duration, percentage above 100); when it
    succeeds all validations held, the amount has been pulled into the
    vault's custody and the allocation
    [{start = startAt; cliff; duration; total = amount; claimed = 0;
      initial = amount * initialPct / 100}] (floor division) has been
    appended to the beneficiary's array; and it does succeed for the owner
    when the validations hold, the caller owns the amount and
    [amount * initialPct] fits in 256 bits. *)
Theorem issue_spec (env : Env) (b amount startAt c d pct : Z) (s : State) :
  (Ledger.allowance (token s) (msg_sender env) < amount
   ∨ b = 0 ∨ d < c ∨ 100 < pct →
   (∃ e, outcome (issue env b amount startAt c d pct) s = Revert e)
   ∧ state_after (issue env b amount startAt c d pct) s = s
   ∧ effects_of (issue env b amount startAt c d pct) s = [])
  ∧ (∀ es s',
       issue env b amount startAt c d pct s = (es, Ok ((), s')) →
       amount ≤ Ledger.allowance (token s) (msg_sender env)
       ∧ b ≠ 0 ∧ c ≤ d ∧ pct ≤ 100
       ∧ Ledger.custodied (token s') = Ledger.custodied (token s) + amount
       ∧ Ledger.balanceOf (token s') (msg_sender env)
         = Ledger.balanceOf (token s) (msg_sender env) - amount
       ∧ allocs s' b =
           allocs s b ++ [mkAllocation startAt c d amount 0 (amount * pct / 100)]
       ∧ (∀ b', b' ≠ b → allocs s' b' = allocs s b')
       ∧ ∃ seen, es = [CallTransferFrom (msg_sender env) amount seen;
                       Issued b amount startAt c d])
  ∧ (owner s = msg_sender env →
     amount ≤ Ledger.allowance (token s) (msg_sender env) →
     amount ≤ Ledger.balanceOf (token s) (msg_sender env) →
     b ≠ 0 → c ≤ d → pct ≤ 100 → amount * pct ≤ MAX_UINT256 →
     outcome (issue env b amount startAt c d pct) s = Ok ()).
Proof.
  split; [|split].
  - intros Hbad.
    destruct (issue_rejects env b amount startAt c d pct s) as (e & Hrej & _);
      [tauto|].
    rewrite (outcome_of _ _ _ _ Hrej), (state_after_Revert _ _ _ _ Hrej),
      (effects_of_eq _ _ _ _ Hrej). eauto.
  - intros es s' (_ & Hal & Hb & Hcd & Hpct & _ & t' & Ht & -> & ->)%issue_Ok_inv.
    destruct (transferFrom_inv _ _ _ _ Ht) as (_ & _ & Hcu & Hbal).
    rewrite allocs_set_allocs_eq.
    repeat split; try done.
    + intros b' Hb'. by rewrite allocs_set_allocs_ne.
    + by eexists.
  - intros Ho Hal Hbal Hb Hcd Hpct Hmul.
    destruct (issue_Ok env b amount startAt c d pct s) as (t' & _ & _ & Hiss);
      [done..|].
    by rewrite (outcome_of _ _ _ _ Hiss).
Qed.

Lemma issue_spec_witness :
  state_after (issue (mkEnv 1 100) 7 61 102 0 10 0) fresh_vault = fresh_vault
  ∧ effects_of (issue (mkEnv 1 100) 7 61 102 0 10 0) fresh_vault = []
  ∧ outcome (issue (mkEnv 1 100) 7 30 102 0 10 50) fresh_vault = Ok ().
Proof.
  split; [|split].
  - apply (issue_spec (mkEnv 1 100) 7 61 102 0 10 0 fresh_vault).
    left. by vm_compute.
  - apply (issue_spec (mkEnv 1 100) 7 61 102 0 10 0 fresh_vault).
    left. by vm_compute.
  - apply (issue_spec (mkEnv 1 100) 7 30 102 0 10 50 fresh_vault);
      try reflexivity; try lia; by vm_compute.
Defined.

(** C10: an allocation created by a successful [issue] has
    [cliff ≤ duration], and the calculator never divides by zero on it; when
    its duration is 0 its cliff is 0 too, and at every time it is either
    before [start], with nothing vested, or at or after [start], fully
    vested. *)
Theorem issued_allocation_never_divides_by_zero
    (env : Env) (b amount startAt c d pct : Z) (s : State) es s' :
  wf_op (OpIssue b amount startAt c d pct) = true →
  issue env b amount startAt c d pct s = (es, Ok ((), s')) →
  ∃ a, allocs s' b = allocs s b ++ [a]
       ∧ cliff a ≤ duration a
       ∧ (∀ now, _vestedAmount now a ≠ Revert DivisionByZero)
       ∧ (duration a = 0 →
          cliff a = 0
          ∧ ∀ now, (now < start a → _vestedAmount now a = Ok 0)
                   ∧ (start a ≤ now → _vestedAmount now a = Ok (total a))).
Proof.
  intros Hop (_ & _ & _ & Hcd & _ & _ & t' & _ & -> & _)%issue_Ok_inv.
  simpl in Hop. rewrite !andb_true_iff, !is_uint256_spec in Hop.
  destruct Hop as (((((_ & Ha) & Hst) & Hc) & Hd) & Hp).
  eexists. split; [by rewrite allocs_set_allocs_eq|].
  simpl. split; [done|]. split.
  - intros now He. by apply vested_error_inv in He.
  - intros ->. split; [lia|]. intros now.
    assert (c = 0) as -> by lia.
    split; intros Hnow; unfold _vestedAmount; simpl; by safemath.
Qed.

Lemma issued_allocation_never_divides_by_zero_witness :
  ∃ a, allocs (state_after (issue (mkEnv 1 100) 7 30 102 0 0 50) fresh_vault) 7
       = allocs fresh_vault 7 ++ [a]
       ∧ cliff a ≤ duration a
       ∧ (∀ now, _vestedAmount now a ≠ Revert DivisionByZero)
       ∧ (duration a = 0 →
          cliff a = 0
          ∧ ∀ now, (now < start a → _vestedAmount now a = Ok 0)
                   ∧ (start a ≤ now → _vestedAmount now a = Ok (total a))).
Proof.
  eapply (issued_allocation_never_divides_by_zero (mkEnv 1 100) 7 30 102 0 0 50
            fresh_vault); [reflexivity|].
  by vm_compute.
Defined.

(** ** [releaseAll] *)

Lemma releasable_defined_nonneg now l :
  0 ≤ now → Forall (releasable_defined now) l → 0 ≤ outstanding l.
Proof.
  intros Hn. induction 1 as [|a l [Hwf [amount He]] _ IH]; simpl; [done|].
  destruct (releasable_range _ _ _ Hwf Hn He). lia.
Qed.

(** The loop from index [n] on: either every remaining allocation has a
    positive releasable amount and all of them are released, or the loop
    fails with [NothingToRelease]. *)
Lemma loop_spec env b rest :
  0 ≤ block_timestamp env →
  ∀ (n : nat) s fuel,
    drop n (allocs s b) = rest →
    Forall (releasable_defined (block_timestamp env)) rest →
    outstanding rest ≤ Ledger.custodied (token s) →
    (length rest ≤ fuel)%nat →
    if forallb (has_releasable (block_timestamp env)) rest
    then ∃ es s',
        releaseAll_loop fuel env b (Z.of_nat n) s = (es, Ok ((), s'))
        ∧ allocs s' b =
            take n (allocs s b) ++ map (released_at (block_timestamp env)) rest
        ∧ (∀ b', b' ≠ b → allocs s' b' = allocs s b')
    else ∃ es,
        releaseAll_loop fuel env b (Z.of_nat n) s = (es, Revert NothingToRelease).
Proof.
  intros Hn. induction rest as [|a rest IH]; intros n s fuel Hdrop Hall Hcust Hfuel.
  - simpl. exists [], s.
    assert (length (allocs s b) ≤ n)%nat.
    { apply (f_equal length) in Hdrop. rewrite length_drop in Hdrop.
      simpl in Hdrop. lia. }
    rewrite loop_done by lia. rewrite take_ge by done.
    by rewrite app_nil_r.
  - assert (allocs s b !! n = Some a) as Hl.
    { rewrite <- (Nat.add_0_r n), <- lookup_drop, Hdrop. done. }
    pose proof (lookup_lt_Some _ _ _ Hl) as Hlen.
    assert (drop (S n) (allocs s b) = rest) as Hdrop'.
    { rewrite (drop_S _ _ _ Hl) in Hdrop. by injection Hdrop. }
    destruct fuel as [|fuel]; [simpl in Hfuel; lia|].
    rewrite loop_next by lia.
    apply Forall_cons in Hall as [[Hwf [amount He]] Hall'].
    destruct (releasable_range _ _ _ Hwf Hn He) as [H0 Hle].
    pose proof (releasable_defined_nonneg _ _ Hn Hall') as Hrest.
    simpl in Hcust. simpl forallb. unfold has_releasable at 1. rewrite He.
    destruct (Z.ltb_spec 0 amount) as [Hpos|Hzero]; simpl.
    + destruct (release_Ok env b (Z.of_nat n) s a amount) as (t' & Ht & Hrel);
        [done | done | lia | by rewrite Nat2Z.id | done | done | lia |].
      rewrite Nat2Z.id in Hrel.
      rewrite (run_seq_Ok _ _ _ _ _ Hrel).
      set (s1 := set_token t' _) in *.
      assert (allocs s1 b = <[n := released amount a]> (allocs s b)) as Hs1.
      { subst s1. by rewrite allocs_set_token, allocs_set_allocs_eq. }
      destruct (transfer_inv _ _ _ _ Ht) as (_ & Hcu & _).
      specialize (IH (S n) s1 fuel).
      replace (Z.of_nat n + 1) with (Z.of_nat (S n)) by lia.
      rewrite Hs1 in IH.
      rewrite drop_insert_lt in IH by lia.
      specialize (IH Hdrop' Hall').
      assert (outstanding rest ≤ Ledger.custodied (token s1)) as Hcust1.
      { subst s1. simpl. lia. }
      specialize (IH Hcust1 ltac:(simpl in Hfuel; lia)).
      destruct (forallb (has_releasable (block_timestamp env)) rest).
      * destruct IH as (es & s' & Hloop & Hlist & Hother).
        eexists _, s'. rewrite Hloop. simpl. split; [done|]. split.
        -- rewrite Hlist.
           rewrite (take_S_r _ _ (released amount a))
             by (by rewrite list_lookup_insert_eq).
           rewrite take_insert_ge by done.
           rewrite <- app_assoc. simpl. unfold released_at at 2. by rewrite He.
        -- intros b' Hb'. rewrite (Hother b' Hb').
           subst s1. by rewrite allocs_set_token, allocs_set_allocs_ne.
      * destruct IH as (es & Hloop). eexists. by rewrite Hloop.
    + assert (amount = 0) as -> by lia.
      pose proof (release_nothing env b (Z.of_nat n) s a ltac:(lia)
                    ltac:(by rewrite Nat2Z.id) He) as Hrel.
      eexists. by rewrite (run_seq_Revert _ _ _ _ _ Hrel).
Qed.

Lemma has_releasable_spec now a :
  0 ≤ now → releasable_defined now a →
  has_releasable now a = true ↔ _releasableAmount now a ≠ Ok 0.
Proof.
  intros Hn [Hwf [amount He]]. unfold has_releasable. rewrite He.
  destruct (releasable_range _ _ _ Hwf Hn He) as [H0 _].
  rewrite Z.ltb_lt. split.
  - intros Hpos [= ->]. lia.
  - intros Hne. destruct (decide (amount = 0)) as [->|]; [done|lia].
Qed.

Lemma forallb_has_releasable now (l : list Allocation) :
  0 ≤ now → Forall (releasable_defined now) l →
  forallb (has_releasable now) l = true
  ↔ ∀ (i : nat) a, l !! i = Some a → _releasableAmount now a ≠ Ok 0.
Proof.
  intros Hn Hall. rewrite forallb_forall. rewrite Forall_lookup in Hall.
  split.
  - intros H i a Hl. apply has_releasable_spec; [done|by eapply Hall|].
    apply H, list_elem_of_In, list_elem_of_lookup. eauto.
  - intros H a [i Hl]%list_elem_of_In%list_elem_of_lookup.
    apply has_releasable_spec; [done|by eapply Hall|]. by eapply H.
Qed.

(** The iteration bound of the loop is never what stops [releaseAll]. *)
Lemma release_error_inv env b i s es e :
  release env b i s = (es, Revert e) → e ≠ OutOfFuel.
Proof.
  unfold release, array_length, store.
  destruct (Z.ltb_spec i (Z.of_nat (length (allocs s b)))) as [Hlen|Hlen];
    msteps; [|by intros [= _ <-]].
  destruct (allocs s b !! Z.to_nat i) as [a|] eqn:Hl; [|by intros [= _ <-]].
  destruct (_releasableAmount (block_timestamp env) a) as [amount|e'] eqn:He;
    msteps.
  2:{ apply releasable_error_inv in He as ->. by intros [= _ <-]. }
  destruct (Z.ltb_spec 0 amount) as [Hpos|Hpos]; msteps; [|by intros [= _ <-]].
  destruct (Z.le_gt_cases (claimed a + amount) MAX_UINT256);
    msteps; [|by intros [= _ <-]].
  simpl.
  destruct (Ledger.transfer b amount (token s)) as [t'|e'] eqn:Ht.
  2:{ apply transfer_Revert_inv in Ht as ->. by intros [= _ <-]. }
  msteps. rewrite allocs_set_token, allocs_set_allocs_eq.
  rewrite list_lookup_insert_eq by (by apply lookup_lt_Some in Hl). simpl.
  destruct (Z.le_gt_cases (claimed a + amount) (total a));
    msteps; simpl; [done|by intros [= _ <-]].
Qed.

Lemma loop_fuel_suffices env b fuel :
  ∀ i s es e,
    0 ≤ i → (length (allocs s b) ≤ fuel + Z.to_nat i)%nat →
    releaseAll_loop fuel env b i s = (es, Revert e) → e ≠ OutOfFuel.
Proof.
  induction fuel as [|fuel IH]; intros i s es e Hi Hfuel.
  - rewrite loop_done by lia. done.
  - destruct (Z.lt_ge_cases i (Z.of_nat (length (allocs s b))));
      [|by rewrite loop_done].
    rewrite loop_next by done.
    destruct (release env b i s) as [es1 [[[] s1]|e1]] eqn:Hrel.
    + rewrite (run_seq_Ok _ _ _ _ _ Hrel).
      destruct (releaseAll_loop fuel env b (i + 1) s1) as [es2 r] eqn:Hloop.
      simpl. intros [= _ ->]. eapply (IH (i + 1) s1); [lia| |exact Hloop].
      rewrite (release_Ok_length _ _ _ _ _ _ _ Hrel). lia.
    + rewrite (run_seq_Revert _ _ _ _ _ Hrel). intros [= _ <-].
      by eapply release_error_inv.
Qed.

Lemma releaseAll_fuel_suffices env b s :
  outcome (releaseAll env b) s ≠ Revert OutOfFuel.
Proof.
  unfold outcome, releaseAll. rewrite run_gets.
  destruct (releaseAll_loop _ env b 0 s) as [es [[u s']|e]] eqn:Hloop;
    simpl; [done|].
  intros [= ->]. eapply loop_fuel_suffices in Hloop; [done|lia|simpl; lia].
Qed.

(** What the loop does, on a state whose custody covers what the beneficiary
    is owed and where every releasable amount is defined: one index with
    releasable amount 0 makes the whole call fail with [NothingToRelease]
    and nothing is released, also not what has vested on the other indices;
    only when no index has releasable amount 0 does the call succeed and
    release every allocation. *)
Theorem releaseAll_all_or_nothing (env : Env) (b : Z) (s : State) :
  wf_env env = true →
  Forall (releasable_defined (block_timestamp env)) (allocs s b) →
  outstanding (allocs s b) ≤ Ledger.custodied (token s) →
  let now := block_timestamp env in
  let s' := state_after (releaseAll env b) s in
  ((∃ (i : nat) a, allocs s b !! i = Some a ∧ _releasableAmount now a = Ok 0) →
   outcome (releaseAll env b) s = Revert NothingToRelease ∧ s' = s)
  ∧ ((∀ (i : nat) a, allocs s b !! i = Some a → _releasableAmount now a ≠ Ok 0) →
     outcome (releaseAll env b) s = Ok ()
     ∧ allocs s' b = map (released_at now) (allocs s b)
     ∧ ∀ b', b' ≠ b → allocs s' b' = allocs s b').
Proof.
  intros Henv Hall Hcust now s'.
  unfold wf_env in Henv. rewrite andb_true_iff, is_uint256_spec in Henv.
  destruct Henv as [_ [Hn _]].
  pose proof (loop_spec env b (allocs s b) Hn 0%nat s (length (allocs s b))
                eq_refl Hall Hcust ltac:(lia)) as Hloop.
  pose proof (forallb_has_releasable _ _ Hn Hall) as Hiff.
  assert (releaseAll env b s =
          releaseAll_loop (length (allocs s b)) env b 0 s) as Hunfold.
  { unfold releaseAll. by rewrite run_gets. }
  subst s'. fold now in Hloop, Hiff.
  destruct (forallb (has_releasable now) (allocs s b)).
  - destruct Hloop as (es & s1 & Hrun & Hlist & Hother).
    change (Z.of_nat 0) with 0 in Hrun. rewrite <- Hunfold in Hrun.
    split.
    + intros (i & a & Hl & He). exfalso.
      by apply (proj1 Hiff eq_refl i a Hl).
    + intros _. rewrite (outcome_of _ _ _ _ Hrun), (state_after_Ok _ _ _ _ _ Hrun).
      by rewrite Hlist.
  - destruct Hloop as (es & Hrun).
    change (Z.of_nat 0) with 0 in Hrun. rewrite <- Hunfold in Hrun.
    split.
    + intros _. by rewrite (outcome_of _ _ _ _ Hrun), (state_after_Revert _ _ _ _ Hrun).
    + intros Hnz. apply Hiff in Hnz. done.
Qed.

Lemma releaseAll_all_or_nothing_witness :
  (outcome (releaseAll (mkEnv 9 105) 7) two_grants = Revert NothingToRelease
   ∧ state_after (releaseAll (mkEnv 9 105) 7) two_grants = two_grants)
  ∧ (outcome (releaseAll (mkEnv 9 125) 7) two_grants = Ok ()
     ∧ allocs (state_after (releaseAll (mkEnv 9 125) 7) two_grants) 7
       = [mkAllocation 102 0 10 30 30 0; mkAllocation 112 0 10 30 30 0]).
Proof.
  split.
  - apply (releaseAll_all_or_nothing (mkEnv 9 105) 7 two_grants).
    + reflexivity.
    + repeat constructor; by eexists.
    + by vm_compute.
    + exists 1%nat, (mkAllocation 112 0 10 30 0 0). split; reflexivity.
  - destruct (releaseAll_all_or_nothing (mkEnv 9 125) 7 two_grants) as [_ H].
    + reflexivity.
    + repeat constructor; by eexists.
    + by vm_compute.
    + destruct H as (H1 & H2 & _); [|split; [exact H1 | exact H2]].
      intros [|[|i]] a; simpl; intros [= <-]; by vm_compute.
Defined.

(** C1: the code does not do what the claim says, nor what the docstring of
    [releaseAll] says ("transfers vested tokens to a given beneficiary").
    With the two grants of the scenario, at time 105 the first has 9 vested
    and releasable (a direct [release] of index 0 pays them) and the second,
    which has not started, 0: [releaseAll] does not skip the second but
    fails as a whole with [NothingToRelease], and the beneficiary receives
    nothing.  Once the first grant is fully claimed (at time 112) it stays in
    the array with releasable amount 0, and [releaseAll] still fails at time
    117 although 15 have vested on the second grant. *)
Theorem releaseAll_reverts_although_tokens_vested :
  reachable two_grants
  ∧ allocs two_grants 7
    = [mkAllocation 102 0 10 30 0 0; mkAllocation 112 0 10 30 0 0]
  ∧ _releasableAmount 105 (mkAllocation 102 0 10 30 0 0) = Ok 9
  ∧ _releasableAmount 105 (mkAllocation 112 0 10 30 0 0) = Ok 0
  ∧ outcome (release (mkEnv 9 105) 7 0) two_grants = Ok ()
  ∧ Ledger.balanceOf (token (state_after (release (mkEnv 9 105) 7 0) two_grants)) 7 = 9
  ∧ outcome (releaseAll (mkEnv 9 105) 7) two_grants = Revert NothingToRelease
  ∧ state_after (releaseAll (mkEnv 9 105) 7) two_grants = two_grants
  ∧ Ledger.balanceOf (token (state_after (releaseAll (mkEnv 9 105) 7) two_grants)) 7 = 0
  ∧ reachable first_fully_claimed
  ∧ allocs first_fully_claimed 7
    = [mkAllocation 102 0 10 30 30 0; mkAllocation 112 0 10 30 0 0]
  ∧ _releasableAmount 117 (mkAllocation 102 0 10 30 30 0) = Ok 0
  ∧ _releasableAmount 117 (mkAllocation 112 0 10 30 0 0) = Ok 15
  ∧ outcome (releaseAll (mkEnv 9 117) 7) first_fully_claimed
    = Revert NothingToRelease
  ∧ state_after (releaseAll (mkEnv 9 117) 7) first_fully_claimed
    = first_fully_claimed.
Proof.
  split; [apply two_grants_reachable|].
  do 8 (split; [by vm_compute|]).
  split.
  { apply (reachable_step two_grants (mkEnv 9 112) (OpRelease 7 0));
      [apply two_grants_reachable | reflexivity..]. }
  repeat split; by vm_compute.
Qed.

(** ** The scenarios of the repository's tests *)

(** "release by index once should work": a grant of 30 starting 2 after
    issuance and lasting 10 is released in full once 12 have passed. *)
Example release_once_scenario :
  let s := state_after (run (mkEnv 9 112) (OpRelease 7 0)) one_grant in
  Ledger.balanceOf (token one_grant) 7 = 0
  ∧ Ledger.balanceOf (token s) 7 = 30.
Proof. by vm_compute. Qed.

(** "releaseAll should work": both grants are vested and released in one
    call. *)
Example releaseAll_scenario :
  Ledger.balanceOf (token two_grants) 7 = 0
  ∧ Ledger.balanceOf (token all_released) 7 = 60
  ∧ Ledger.custodied (token all_released) = 0.
Proof. by vm_compute. Qed.

(** "revoke by index should work": after the first grant is revoked the
    second one has moved to index 0, the owner has its 30 back, and
    [releaseAll] pays only the remaining 30. *)
Example revoke_scenario :
  allocs first_revoked 7 = [mkAllocation 112 0 10 30 0 0]
  ∧ Ledger.balanceOf (token first_revoked) 1 = 970
  ∧ Ledger.balanceOf (token first_revoked_released) 7 = 30
  ∧ Ledger.custodied (token first_revoked_released) = 0.
Proof. by vm_compute. Qed.

(** Releasing twice in immediate succession: the second call finds nothing
    to release. *)
Example release_twice_scenario :
  outcome (release (mkEnv 9 105) 7 0) two_grants = Ok ()
  ∧ outcome (release (mkEnv 9 105) 7 0) after_release = Revert NothingToRelease.
Proof. by vm_compute. Qed.

(** * Further properties of the contract *)

(** ** [release] and the calculator *)

Lemma vested_with_claimed now c a :
  _vestedAmount now (with_claimed c a) = _vestedAmount now a.
Proof. reflexivity. Qed.

Lemma releasable_inv now a amount :
  _releasableAmount now a = Ok amount →
  _vestedAmount now a = Ok (claimed a + amount).
Proof.
  unfold _releasableAmount.
  destruct (_vestedAmount now a) as [v|]; [|done]. rewrite bind_Ok.
  intros [-> _]%sub_inv. f_equal. lia.
Qed.

Lemma release_Ok_vested env b i s es u s' :
  release env b i s = (es, Ok (u, s')) →
  ∃ a', allocs s' b !! Z.to_nat i = Some a'
        ∧ _vestedAmount (block_timestamp env) a' = Ok (claimed a')
        ∧ _releasableAmount (block_timestamp env) a' = Ok 0.
Proof.
  intros (a & amount & t' & Hl & _ & He & _ & _ & -> & _)%release_Ok_inv.
  exists (released amount a).
  rewrite allocs_set_token, allocs_set_allocs_eq.
  rewrite list_lookup_insert_eq by (by apply lookup_lt_Some in Hl).
  apply releasable_inv in He.
  assert (_vestedAmount (block_timestamp env) (released amount a)
          = Ok (claimed (released amount a))) as Hv by exact He.
  repeat split; [done|].
  unfold _releasableAmount. rewrite Hv, bind_Ok.
  unfold SafeMath.sub. rewrite Z.leb_refl. f_equal. lia.
Qed.

(** X1: After a successful release the claimed amount of the allocation is
    exactly what has vested at that time, so nothing is releasable any
    more. *)
Theorem release_claims_what_has_vested
    (env : Env) (b i : Z) (s : State) es s' :
  release env b i s = (es, Ok ((), s')) →
  ∃ a', allocs s' b !! Z.to_nat i = Some a'
        ∧ _vestedAmount (block_timestamp env) a' = Ok (claimed a')
        ∧ _releasableAmount (block_timestamp env) a' = Ok 0.
Proof. apply release_Ok_vested. Qed.

Lemma release_claims_what_has_vested_witness :
  ∃ a', allocs after_release 7 !! Z.to_nat 0 = Some a'
        ∧ _vestedAmount 105 a' = Ok (claimed a')
        ∧ _releasableAmount 105 a' = Ok 0.
Proof.
  apply (release_claims_what_has_vested (mkEnv 9 105) 7 0 two_grants
           (effects_of (release (mkEnv 9 105) 7 0) two_grants)).
  by vm_compute.
Defined.

(** X2: A second release of the same index at the same timestamp, by whatever
    caller, finds nothing to release: it fails with [NothingToRelease] and
    makes no transfer. *)
Theorem release_twice_fails (env env' : Env) (b i : Z) (s : State) es s' :
  0 ≤ i → block_timestamp env' = block_timestamp env →
  release env b i s = (es, Ok ((), s')) →
  release env' b i s' = ([], Revert NothingToRelease).
Proof.
  intros Hi Ht Hrel.
  destruct (release_Ok_vested env b i s es () s' Hrel) as (a' & Hl & _ & He).
  apply (release_nothing env' b i s' a' Hi Hl). by rewrite Ht.
Qed.

Lemma release_twice_fails_witness :
  release (mkEnv 1 105) 7 0 after_release = ([], Revert NothingToRelease).
Proof.
  apply (release_twice_fails (mkEnv 9 105) (mkEnv 1 105) 7 0 two_grants
           (effects_of (release (mkEnv 9 105) 7 0) two_grants));
    [lia | reflexivity | by vm_compute].
Defined.

(** ** The schedule of stored allocations *)

Lemma release_preserves_scheduled env b i s es u s' :
  0 ≤ block_timestamp env →
  scheduled_store s → release env b i s = (es, Ok (u, s')) → scheduled_store s'.
Proof.
  intros Hn Hs (a & amount & t' & Hl & _ & He & Hpos & _ & -> & _)%release_Ok_inv b'.
  rewrite allocs_set_token.
  destruct (decide (b = b')) as [<-|Hne]; [|by rewrite allocs_set_allocs_ne].
  rewrite allocs_set_allocs_eq. apply Forall_insert; [apply Hs|].
  pose proof (Hs b) as Hb. rewrite Forall_lookup in Hb.
  destruct (Hb _ _ Hl) as (Hwf & Hit & Hcd).
  split; [|done].
  destruct (releasable_range _ _ _ Hwf Hn He) as [? ?].
  pose proof (proj1 (wf_allocation_spec a) Hwf) as (? & ? & ? & ? & ? & ?).
  apply wf_allocation_spec. simpl. repeat split; lia.
Qed.

Lemma issue_preserves_scheduled env b amount startAt c d pct s es u s' :
  wf_op (OpIssue b amount startAt c d pct) = true →
  scheduled_store s →
  issue env b amount startAt c d pct s = (es, Ok (u, s')) → scheduled_store s'.
Proof.
  intros Hop Hs (_ & _ & _ & Hcd & Hpct & Hmul & t' & _ & -> & _)%issue_Ok_inv b'.
  simpl in Hop. rewrite !andb_true_iff, !is_uint256_spec in Hop.
  destruct Hop as (((((_ & Ha) & Hst) & Hc) & Hd) & Hp).
  destruct (decide (b = b')) as [<-|Hne];
    [|rewrite allocs_set_allocs_ne by done; apply Hs].
  rewrite allocs_set_allocs_eq. apply Forall_app. split; [apply Hs|].
  apply Forall_singleton.
  assert (0 ≤ amount * pct / 100 ≤ amount) as Hini.
  { split; [apply Z.div_pos; nia | apply Z.div_le_upper_bound; nia]. }
  split; [|simpl; lia].
  apply wf_allocation_spec. simpl. repeat split; lia.
Qed.

Lemma revoke_preserves_scheduled env b i s es u s' :
  0 ≤ i → scheduled_store s → revoke env b i s = (es, Ok (u, s')) →
  scheduled_store s'.
Proof.
  intros Hi Hs (a & t' & _ & _ & _ & _ & -> & _)%revoke_Ok_inv b'; [|done].
  rewrite allocs_set_token.
  destruct (decide (b = b')) as [<-|Hne]; [|by rewrite allocs_set_allocs_ne].
  rewrite allocs_set_allocs_eq. apply swap_pop_Forall, Hs.
Qed.

Lemma reachable_scheduled s : reachable s → scheduled_store s.
Proof.
  induction 1 as [s Hinit|s env op s' _ IH Henv Hop ->].
  - intros b. by rewrite allocs_initial.
  - destruct (state_after_cases (run env op) s) as [[es Hrun]|[-> _]]; [|done].
    unfold wf_env in Henv. rewrite andb_true_iff, is_uint256_spec in Henv.
    destruct Henv as [_ [Hn _]].
    destruct op as [b amount startAt c d pct|b i|b|b i]; simpl in Hrun.
    + by eapply issue_preserves_scheduled.
    + by eapply release_preserves_scheduled.
    + eapply (releaseAll_preserves scheduled_store); [|exact IH|exact Hrun].
      intros i s0 es0 u0 s0' _. by apply release_preserves_scheduled.
    + simpl in Hop. rewrite andb_true_iff, is_uint256_spec in Hop.
      eapply revoke_preserves_scheduled; [|exact IH|exact Hrun]. lia.
Qed.



(** X4: From the cliff on, at least the initial tranche has vested, and never
    more than the total. *)
Theorem vested_at_least_initial_after_cliff (a : Allocation) (now v : Z) :
  wf_allocation a = true → initial a ≤ total a →
  start a + cliff a ≤ now →
  _vestedAmount now a = Ok v → initial a ≤ v ≤ total a.
Proof.
  intros Hwf Hit Hc Hv.
  pose proof (proj1 (wf_allocation_spec a) Hwf) as (Hs & Hcl & Hdu & Ht & _ & Hi).
  destruct (vested_cases a now v Hwf ltac:(lia) Hv)
    as [(? & ->)|[(? & ? & ->)|(? & ? & ->)]]; [lia|lia|].
  pose proof (linear_part_bounds a (total a - initial a) (now - start a)
                ltac:(lia) ltac:(lia)). lia.
Qed.

Lemma vested_at_least_initial_after_cliff_witness :
  initial half_at_cliff ≤ 75 ≤ total half_at_cliff.
Proof.
  apply (vested_at_least_initial_after_cliff half_at_cliff 5 75);
    [reflexivity | simpl; lia | simpl; lia | reflexivity].
Defined.

(** X6: Once the duration has elapsed, a release pays everything that is still
    owed on the allocation and leaves it fully claimed. *)
Theorem release_after_duration_pays_the_rest
    (env : Env) (b i : Z) (s : State) (a : Allocation) :
  reachable s → wf_env env = true →
  0 ≤ i → allocs s b !! Z.to_nat i = Some a →
  start a + duration a ≤ block_timestamp env → claimed a < total a →
  let s' := state_after (release env b i) s in
  outcome (release env b i) s = Ok ()
  ∧ allocs s' b !! Z.to_nat i = Some (with_claimed (total a) a)
  ∧ Ledger.custodied (token s') = Ledger.custodied (token s) - (total a - claimed a)
  ∧ ∃ seen, effects_of (release env b i) s =
              [CallTransfer b (total a - claimed a) seen; Released b (total a - claimed a) 0].
Proof.
  intros Hr Henv Hi Hl Hend Hlt s'.
  unfold wf_env in Henv. rewrite andb_true_iff, !is_uint256_spec in Henv.
  destruct Henv as [_ [Hn Hmax]].
  destruct (reachable_covers s b _ a Hr Hl) as (Hwf & Hc & Hcust).
  pose proof (reachable_scheduled s Hr b) as Hb. rewrite Forall_lookup in Hb.
  destruct (Hb _ _ Hl) as (_ & Hit & Hcd).
  assert (_releasableAmount (block_timestamp env) a = Ok (total a - claimed a)) as He.
  { unfold _releasableAmount. rewrite vested_after_end by lia. by safemath. }
  destruct (release_Ok env b i s a (total a - claimed a)) as (t' & Ht & Hrel);
    [done..|lia|done|].
  subst s'. rewrite (state_after_Ok _ _ _ _ _ Hrel).
  rewrite (outcome_of _ _ _ _ Hrel), (effects_of_eq _ _ _ _ Hrel).
  destruct (transfer_inv _ _ _ _ Ht) as (_ & Hcu & _).
  rewrite allocs_set_token, allocs_set_allocs_eq.
  rewrite list_lookup_insert_eq by (by apply lookup_lt_Some in Hl).
  unfold released.
  replace (claimed a + (total a - claimed a)) with (total a) by lia.
  replace (total a - total a) with 0 by lia.
  repeat split; try done. by eexists.
Qed.

Lemma release_after_duration_pays_the_rest_witness :
  outcome (release (mkEnv 9 112) 7 0) after_release = Ok ()
  ∧ allocs (state_after (release (mkEnv 9 112) 7 0) after_release) 7 !! Z.to_nat 0
    = Some (mkAllocation 102 0 10 30 30 0).
Proof.
  destruct (release_after_duration_pays_the_rest (mkEnv 9 112) 7 0 after_release
              (mkAllocation 102 0 10 30 9 0)) as (H1 & H2 & _);
    [apply after_release_reachable | reflexivity | lia | reflexivity
    | simpl; lia | simpl; lia |].
  split; [exact H1 | exact H2].
Defined.

(** ** The view [releasableAmount] *)

Lemma releasableAmount_eq env b i s :
  releasableAmount env b i s =
    ([], match allocs s b !! Z.to_nat i with
         | Some a =>
             match _releasableAmount (block_timestamp env) a with
             | Ok v => Ok (v, s)
             | Revert e => Revert e
             end
         | None => Revert ArrayOutOfBounds
         end).
Proof.
  unfold releasableAmount. rewrite run_load.
  destruct (allocs s b !! Z.to_nat i); [|done].
  unfold lift. done.
Qed.

(** X7: The view tells what [release] will do: in a reachable state and for a
    valid index, a positive answer is exactly the amount the next release
    transfers to the beneficiary, the answer 0 means that release fails with
    [NothingToRelease], and when the view reverts release reverts with the
    same error.  The view itself changes nothing. *)
Theorem releasableAmount_predicts_release (env : Env) (b i : Z) (s : State) :
  reachable s → wf_env env = true →
  0 ≤ i < Z.of_nat (length (allocs s b)) →
  (releasableAmount env b i s).1 = []
  ∧ match (releasableAmount env b i s).2 with
    | Ok (amount, s1) =>
        s1 = s
        ∧ if amount =? 0
          then release env b i s = ([], Revert NothingToRelease)
          else outcome (release env b i) s = Ok ()
               ∧ ∃ seen remaining,
                   effects_of (release env b i) s =
                     [CallTransfer b amount seen; Released b amount remaining]
    | Revert e => release env b i s = ([], Revert e)
    end.
Proof.
  intros Hr Henv Hi. rewrite releasableAmount_eq. simpl. split; [done|].
  destruct (lookup_lt_is_Some_2 (allocs s b) (Z.to_nat i)) as [a Hl]; [lia|].
  rewrite Hl.
  destruct (_releasableAmount (block_timestamp env) a) as [amount|e] eqn:He.
  - split; [done|].
    destruct (reachable_covers s b _ a Hr Hl) as (Hwf & Hc & Hcust).
    unfold wf_env in Henv. rewrite andb_true_iff, !is_uint256_spec in Henv.
    destruct Henv as [_ [Hn _]].
    destruct (releasable_range _ _ _ Hwf Hn He) as [H0 Hle].
    destruct (Z.eqb_spec amount 0) as [->|Hne].
    + apply (release_nothing env b i s a); [lia|done..].
    + destruct (release_Ok env b i s a amount) as (t' & _ & Hrel);
        [done | done | lia | done | done | lia | lia |].
      rewrite (outcome_of _ _ _ _ Hrel), (effects_of_eq _ _ _ _ Hrel).
      split; [done|]. by eexists _, _.
  - apply (release_reverts_early env b i s a); [lia|done..].
Qed.

Lemma releasableAmount_predicts_release_witness :
  (releasableAmount (mkEnv 9 105) 7 0 two_grants).2 = Ok (9, two_grants)
  ∧ outcome (release (mkEnv 9 105) 7 0) two_grants = Ok ().
Proof.
  split; [reflexivity|].
  pose proof (releasableAmount_predicts_release (mkEnv 9 105) 7 0 two_grants
                two_grants_reachable eq_refl ltac:(vm_compute; split; congruence))
    as [_ H].
  apply H.
Defined.

(** ** More about [releaseAll] *)

(** A successful loop has released every index from its starting point on. *)
Lemma loop_Ok_inv env b fuel :
  ∀ (n : nat) s es u s',
    releaseAll_loop fuel env b (Z.of_nat n) s = (es, Ok (u, s')) →
    ∀ (j : nat) a, (n ≤ j)%nat → allocs s b !! j = Some a →
      ∃ amount, _releasableAmount (block_timestamp env) a = Ok amount ∧ 0 < amount.
Proof.
  induction fuel as [|fuel IH]; intros n s es u s' Hloop j a Hnj Hl;
    pose proof (lookup_lt_Some _ _ _ Hl) as Hlen.
  - rewrite loop_no_fuel in Hloop by lia. done.
  - rewrite loop_next in Hloop by lia.
    apply run_seq_Ok_inv in Hloop as (es1 & s1 & es2 & Hrel & Hrest & _).
    destruct (decide (j = n)) as [->|Hne].
    + apply release_Ok_inv in Hrel as (a0 & amount & _ & Hl0 & _ & He & Hpos & _).
      rewrite Nat2Z.id, Hl in Hl0. injection Hl0 as <-. eauto.
    + replace (Z.of_nat n + 1) with (Z.of_nat (S n)) in Hrest by lia.
      eapply (IH (S n) s1 _ _ _ Hrest j a); [lia|].
      rewrite (release_Ok_other_index _ _ _ _ _ _ _ _ Hrel); [done|].
      rewrite Nat2Z.id. done.
Qed.

Lemma releaseAll_Ok_inv env b s es u s' :
  releaseAll env b s = (es, Ok (u, s')) →
  ∀ (j : nat) a, allocs s b !! j = Some a →
    ∃ amount, _releasableAmount (block_timestamp env) a = Ok amount ∧ 0 < amount.
Proof.
  unfold releaseAll. rewrite run_gets. intros Hloop j a Hl.
  eapply (loop_Ok_inv env b _ 0%nat s es u s' Hloop j a); [lia|done].
Qed.

(** X8: [releaseAll] succeeds only if every allocation of the beneficiary has a
    positive releasable amount at that time, whatever the state. *)
Theorem releaseAll_succeeds_only_if_all_positive
    (env : Env) (b : Z) (s : State) (j : nat) (a : Allocation) :
  outcome (releaseAll env b) s = Ok () →
  allocs s b !! j = Some a →
  ∃ amount, _releasableAmount (block_timestamp env) a = Ok amount ∧ 0 < amount.
Proof.
  unfold outcome.
  destruct (releaseAll env b s) as [es [[u s']|e]] eqn:Hrun; simpl; [|done].
  intros _. by eapply releaseAll_Ok_inv.
Qed.

Lemma releaseAll_succeeds_only_if_all_positive_witness :
  ∃ amount, _releasableAmount 125 (mkAllocation 112 0 10 30 0 0) = Ok amount
            ∧ 0 < amount.
Proof.
  apply (releaseAll_succeeds_only_if_all_positive (mkEnv 9 125) 7 two_grants 1%nat);
    reflexivity.
Defined.

(** X9: A fully claimed allocation stays in the store and from then on blocks
    [releaseAll] for its beneficiary at every time, as it blocks [release]
    of its own index: both revert and change nothing. *)
Theorem fully_claimed_blocks_releaseAll
    (env : Env) (b : Z) (s : State) (j : nat) (a : Allocation) :
  wf_env env = true → wf_allocation a = true →
  allocs s b !! j = Some a → claimed a = total a →
  (∃ e, outcome (releaseAll env b) s = Revert e)
  ∧ state_after (releaseAll env b) s = s
  ∧ (∃ e, outcome (release env b (Z.of_nat j)) s = Revert e)
  ∧ state_after (release env b (Z.of_nat j)) s = s.
Proof.
  intros Henv Hwf Hl Hfull.
  unfold wf_env in Henv. rewrite andb_true_iff, !is_uint256_spec in Henv.
  destruct Henv as [_ [Hn _]].
  assert (∀ amount, _releasableAmount (block_timestamp env) a = Ok amount →
                    0 < amount → False) as Hno.
  { intros amount He Hpos.
    destruct (releasable_range _ _ _ Hwf Hn He). lia. }
  unfold outcome, state_after.
  destruct (releaseAll env b s) as [es [[u s']|e]] eqn:Hall; simpl.
  { exfalso. destruct (releaseAll_Ok_inv _ _ _ _ _ _ Hall j a Hl) as (? & ? & ?).
    eauto. }
  destruct (release env b (Z.of_nat j) s) as [es1 [[u1 s1]|e1]] eqn:Hrel; simpl.
  { exfalso.
    apply release_Ok_inv in Hrel as (a0 & amount & _ & Hl0 & _ & He & Hpos & _).
    rewrite Nat2Z.id, Hl in Hl0. injection Hl0 as <-. eauto. }
  repeat split; eauto.
Qed.

Lemma fully_claimed_blocks_releaseAll_witness :
  (∃ e, outcome (releaseAll (mkEnv 9 500) 7) all_released = Revert e)
  ∧ state_after (releaseAll (mkEnv 9 500) 7) all_released = all_released
  ∧ (∃ e, outcome (release (mkEnv 9 500) 7 (Z.of_nat 0)) all_released = Revert e)
  ∧ state_after (release (mkEnv 9 500) 7 (Z.of_nat 0)) all_released = all_released.
Proof.
  apply (fully_claimed_blocks_releaseAll (mkEnv 9 500) 7 all_released 0%nat
           (mkAllocation 102 0 10 30 30 0)); reflexivity.
Defined.

(** [issue] accepts an amount of 0; such a grant is fully claimed from the
    start, so it can never be released. *)
Example zero_grant_blocks_releaseAll :
  allocs empty_grant 8 = [mkAllocation 102 0 10 0 0 0]
  ∧ outcome (releaseAll (mkEnv 9 500) 8) empty_grant = Revert NothingToRelease.
Proof. by vm_compute. Qed.

(** X10: For a beneficiary without allocations [releaseAll] succeeds and does
    nothing: no transfer, no event, no change of state. *)
Theorem releaseAll_without_allocations (env : Env) (b : Z) (s : State) :
  allocs s b = [] → releaseAll env b s = ([], Ok ((), s)).
Proof.
  intros Hempty. unfold releaseAll. rewrite run_gets.
  apply loop_done. rewrite Hempty. simpl. lia.
Qed.

Lemma releaseAll_without_allocations_witness :
  releaseAll (mkEnv 9 105) 3 two_grants = ([], Ok ((), two_grants)).
Proof. apply releaseAll_without_allocations. reflexivity. Defined.

Lemma release_Ok_accounts env b i s es u s' :
  release env b i s = (es, Ok (u, s')) →
  Ledger.custodied (token s') + Ledger.balanceOf (token s') b
  = Ledger.custodied (token s) + Ledger.balanceOf (token s) b
  ∧ Ledger.custodied (token s') - outstanding (allocs s' b)
    = Ledger.custodied (token s) - outstanding (allocs s b)
  ∧ length (allocs s' b) = length (allocs s b)
  ∧ ∀ b', b' ≠ b → allocs s' b' = allocs s b'.
Proof.
  intros Hrel. pose proof (release_Ok_length _ _ _ _ _ _ _ Hrel) as Hlen.
  assert (∀ b', b' ≠ b → allocs s' b' = allocs s b') as Hother.
  { intros b' Hb'. by eapply release_Ok_other_beneficiary. }
  apply release_Ok_inv in Hrel
    as (a & amount & t' & Hl & _ & He & Hpos & Ht & -> & _).
  destruct (transfer_inv _ _ _ _ Ht) as (_ & Hcu & Hbal).
  repeat split; try done.
  - simpl. lia.
  - rewrite allocs_set_token, allocs_set_allocs_eq.
    rewrite (outstanding_insert _ _ _ _ Hl). simpl. lia.
Qed.

(** X11: What a successful [releaseAll] takes out of the custody is what the
    beneficiary receives and what the beneficiary's allocations owe less;
    the array keeps its length and other beneficiaries keep their arrays. *)
Theorem releaseAll_pays_what_leaves_custody
    (env : Env) (b : Z) (s : State) es s' :
  releaseAll env b s = (es, Ok ((), s')) →
  Ledger.balanceOf (token s') b - Ledger.balanceOf (token s) b
  = Ledger.custodied (token s) - Ledger.custodied (token s')
  ∧ outstanding (allocs s b) - outstanding (allocs s' b)
    = Ledger.custodied (token s) - Ledger.custodied (token s')
  ∧ length (allocs s' b) = length (allocs s b)
  ∧ ∀ b', b' ≠ b → allocs s' b' = allocs s b'.
Proof.
  intros Hrun.
  pose (P := λ s1 : State,
    Ledger.custodied (token s1) + Ledger.balanceOf (token s1) b
    = Ledger.custodied (token s) + Ledger.balanceOf (token s) b
    ∧ Ledger.custodied (token s1) - outstanding (allocs s1 b)
      = Ledger.custodied (token s) - outstanding (allocs s b)
    ∧ length (allocs s1 b) = length (allocs s b)
    ∧ ∀ b', b' ≠ b → allocs s1 b' = allocs s b').
  assert (P s') as (H1 & H2 & H3 & H4).
  { apply (releaseAll_preserves P env b) with (s := s) (es := es) (u := ());
      [|by unfold P|done].
    intros i s0 es0 u0 s0' _ (H1 & H2 & H3 & H4) Hrel.
    destruct (release_Ok_accounts _ _ _ _ _ _ _ Hrel) as (G1 & G2 & G3 & G4).
    unfold P. repeat split; try congruence.
    intros b' Hb'. rewrite (G4 b' Hb'). by apply H4. }
  repeat split; try done; lia.
Qed.

Lemma releaseAll_pays_what_leaves_custody_witness :
  Ledger.balanceOf (token all_released) 7 - Ledger.balanceOf (token two_grants) 7
  = Ledger.custodied (token two_grants) - Ledger.custodied (token all_released).
Proof.
  apply (releaseAll_pays_what_leaves_custody (mkEnv 9 125) 7 two_grants
           (effects_of (releaseAll (mkEnv 9 125) 7) two_grants)).
  by vm_compute.
Defined.

(** ** More about [revoke] and [issue] *)

Lemma swap_pop_Permutation i (l : list Allocation) a :
  l !! i = Some a → a :: swap_pop i l ≡ₚ l.
Proof.
  destruct (snoc_cases l) as [->|(l0 & x & ->)]; [done|].
  rewrite swap_pop_snoc. intros Hl. case_decide as Hi.
  - subst i. rewrite list_lookup_middle in Hl by done. injection Hl as <-.
    apply Permutation_cons_append.
  - assert (i < length l0)%nat as Hlt.
    { apply lookup_lt_Some in Hl. rewrite length_app in Hl. simpl in Hl. lia. }
    rewrite lookup_app_l in Hl by done.
    rewrite insert_take_drop by done.
    rewrite <- (take_drop_middle l0 i a Hl) at 3.
    rewrite <- Permutation_cons_append, <- !Permutation_middle.
    apply perm_swap.
Qed.

(** X12: A successful [revoke] removes exactly the addressed allocation: the
    allocations that remain are, up to their order, those that were there
    without the revoked one. *)
Theorem revoke_removes_exactly_one (env : Env) (b i : Z) (s : State) es s' :
  0 ≤ i → revoke env b i s = (es, Ok ((), s')) →
  ∃ a, allocs s b !! Z.to_nat i = Some a
       ∧ a :: allocs s' b ≡ₚ allocs s b
       ∧ ∀ b', b' ≠ b → allocs s' b' = allocs s b'.
Proof.
  intros Hi (a & t' & _ & Hl & _ & _ & -> & _)%revoke_Ok_inv; [|done].
  exists a. rewrite allocs_set_token, allocs_set_allocs_eq.
  repeat split; [done | by apply swap_pop_Permutation|].
  intros b' Hb'. by rewrite allocs_set_token, allocs_set_allocs_ne.
Qed.

Lemma revoke_removes_exactly_one_witness :
  ∃ a, allocs two_grants 7 !! Z.to_nat 0 = Some a
       ∧ a :: allocs first_revoked 7 ≡ₚ allocs two_grants 7
       ∧ ∀ b', b' ≠ 7 → allocs first_revoked b' = allocs two_grants b'.
Proof.
  apply (revoke_removes_exactly_one (mkEnv 1 101) 7 0 two_grants
           (effects_of (revoke (mkEnv 1 101) 7 0) two_grants)); [lia|].
  by vm_compute.
Defined.

(** X13: Issuing a grant and revoking it at once (it sits at the last index) is a
    round trip: every beneficiary's array, the custody and the owner's
    balance are as before. *)
Theorem issue_then_revoke_round_trip
    (env env' : Env) (b amount startAt c d pct : Z) (s : State) es s1 :
  0 ≤ amount → 0 ≤ Ledger.custodied (token s) →
  msg_sender env' = msg_sender env →
  issue env b amount startAt c d pct s = (es, Ok ((), s1)) →
  let i := Z.of_nat (length (allocs s b)) in
  let s2 := state_after (revoke env' b i) s1 in
  outcome (revoke env' b i) s1 = Ok ()
  ∧ (∀ b', allocs s2 b' = allocs s b')
  ∧ Ledger.custodied (token s2) = Ledger.custodied (token s)
  ∧ Ledger.balanceOf (token s2) (msg_sender env)
    = Ledger.balanceOf (token s) (msg_sender env).
Proof.
  intros Ha Hcust Hsender Hiss i s2. subst i s2.
  apply issue_Ok_inv in Hiss as (Ho & _ & _ & _ & _ & _ & t' & Ht & -> & _).
  destruct (transferFrom_inv _ _ _ _ Ht) as (_ & _ & Hcu & Hbal).
  set (a := mkAllocation startAt c d amount 0 (amount * pct / 100)).
  set (s1 := set_allocs b (allocs s b ++ [a]) (set_token t' s)).
  set (i := Z.of_nat (length (allocs s b))).
  assert (allocs s1 b = allocs s b ++ [a]) as Hs1
    by (subst s1; by rewrite allocs_set_allocs_eq).
  assert (Z.to_nat i = length (allocs s b)) as Hi by (subst i; lia).
  assert (allocs s1 b !! Z.to_nat i = Some a) as Hl.
  { rewrite Hi, Hs1. by apply list_lookup_middle. }
  destruct (revoke_Ok env' b i s1 a) as (t2 & Ht2 & Hrev);
    [subst s1; simpl; congruence | subst i; lia | done | simpl; lia
    | subst s1; simpl; lia |].
  rewrite (state_after_Ok _ _ _ _ _ Hrev), (outcome_of _ _ _ _ Hrev).
  destruct (transfer_inv _ _ _ _ Ht2) as (_ & Hcu2 & Hbal2).
  replace (total a - claimed a) with amount in * by (simpl; lia).
  repeat split.
  - intros b'. rewrite allocs_set_token.
    destruct (decide (b = b')) as [<-|Hne].
    + rewrite allocs_set_allocs_eq, Hs1, Hi, swap_pop_snoc.
      by rewrite decide_True.
    + rewrite allocs_set_allocs_ne by done. subst s1.
      by rewrite allocs_set_allocs_ne.
  - simpl. rewrite Hcu2. subst s1. simpl. lia.
  - simpl. rewrite <- Hsender, Hbal2. subst s1. simpl. rewrite Hsender. lia.
Qed.

Lemma issue_then_revoke_round_trip_witness :
  outcome (revoke (mkEnv 1 101) 7 (Z.of_nat 1)) two_grants = Ok ()
  ∧ (∀ b', allocs (state_after (revoke (mkEnv 1 101) 7 (Z.of_nat 1)) two_grants) b'
           = allocs one_grant b').
Proof.
  destruct (issue_then_revoke_round_trip (mkEnv 1 100) (mkEnv 1 101)
              7 30 112 0 10 0 one_grant
              (effects_of (issue (mkEnv 1 100) 7 30 112 0 10 0) one_grant)
              two_grants) as (H1 & H2 & _);
    [lia | by vm_compute | reflexivity | by vm_compute |].
  split; [exact H1 | exact H2].
Defined.

(** X15: Only the owner can issue or revoke: for any other caller both reject
    with [NotOwner] before anything else is looked at. *)
Theorem only_owner_issues_and_revokes
    (env : Env) (b amount startAt c d pct i : Z) (s : State) :
  owner s ≠ msg_sender env →
  issue env b amount startAt c d pct s = ([], Revert NotOwner)
  ∧ revoke env b i s = ([], Revert NotOwner).
Proof.
  intros Ho. split.
  - unfold issue, onlyOwner. rewrite run_bind_assoc. by msteps.
  - unfold revoke, onlyOwner. rewrite run_bind_assoc. by msteps.
Qed.

Lemma only_owner_issues_and_revokes_witness :
  issue (mkEnv 9 100) 7 30 102 0 10 0 fresh_vault = ([], Revert NotOwner)
  ∧ revoke (mkEnv 9 100) 7 0 two_grants = ([], Revert NotOwner).
Proof.
  split.
  - apply (only_owner_issues_and_revokes (mkEnv 9 100) 7 30 102 0 10 0 0 fresh_vault).
    by vm_compute.
  - apply (only_owner_issues_and_revokes (mkEnv 9 100) 7 30 102 0 10 0 0 two_grants).
    by vm_compute.
Defined.

(** X16: An index at or beyond the length of the beneficiary's array (any index,
    for a beneficiary without allocations): [release] and the owner's
    [revoke] reject with [IndexOutOfRange], the view [releasableAmount],
    whose array access is not guarded, fails with [ArrayOutOfBounds]; none of
    them transfers or changes anything. *)
Theorem index_out_of_range (env : Env) (b i : Z) (s : State) :
  Z.of_nat (length (allocs s b)) ≤ i →
  release env b i s = ([], Revert IndexOutOfRange)
  ∧ (owner s = msg_sender env → revoke env b i s = ([], Revert IndexOutOfRange))
  ∧ releasableAmount env b i s = ([], Revert ArrayOutOfBounds).
Proof.
  intros Hi. split; [by apply release_out_of_range|].
  split; [intros Ho; by apply revoke_out_of_range|].
  rewrite releasableAmount_eq.
  rewrite (proj2 (lookup_ge_None (allocs s b) (Z.to_nat i))) by lia. done.
Qed.

Lemma index_out_of_range_witness :
  release (mkEnv 9 105) 7 2 two_grants = ([], Revert IndexOutOfRange)
  ∧ releasableAmount (mkEnv 9 105) 3 0 two_grants = ([], Revert ArrayOutOfBounds).
Proof.
  split.
  - apply (index_out_of_range (mkEnv 9 105) 7 2 two_grants). by vm_compute.
  - apply (index_out_of_range (mkEnv 9 105) 3 0 two_grants). by vm_compute.
Defined.

(** X17: [issue] pulls the amount in before it computes the initial tranche: when
    every validation holds and the transfer goes through but
    [amount * initialPct] does not fit in 256 bits, the call reverts with an
    arithmetic error after the transfer was made, and nothing is kept. *)
Theorem issue_rejects_when_initial_overflows
    (env : Env) (b amount startAt c d pct : Z) (s : State) :
  owner s = msg_sender env →
  amount ≤ Ledger.allowance (token s) (msg_sender env) →
  amount ≤ Ledger.balanceOf (token s) (msg_sender env) →
  b ≠ 0 → c ≤ d → pct ≤ 100 → MAX_UINT256 < amount * pct →
  issue env b amount startAt c d pct s =
    ([CallTransferFrom (msg_sender env) amount (allocations s)],
     Revert ArithmeticOverflow)
  ∧ state_after (issue env b amount startAt c d pct) s = s.
Proof.
  intros Ho Hal Hbal Hb Hcd Hpct Hmul.
  assert (issue env b amount startAt c d pct s =
            ([CallTransferFrom (msg_sender env) amount (allocations s)],
             Revert ArithmeticOverflow)) as Hiss.
  { unfold issue, onlyOwner, token_allowance, push.
    rewrite run_bind_assoc. msteps. simpl. msteps.
    unfold Ledger.transferFrom. safemath. simpl. by msteps. }
  split; [done | by eapply state_after_Revert].
Qed.

Lemma issue_rejects_when_initial_overflows_witness :
  issue (mkEnv 1 100) 7 (2 ^ 255) 102 0 10 2 whale_vault =
    ([CallTransferFrom 1 (2 ^ 255) ∅], Revert ArithmeticOverflow)
  ∧ state_after (issue (mkEnv 1 100) 7 (2 ^ 255) 102 0 10 2) whale_vault
    = whale_vault.
Proof.
  apply (issue_rejects_when_initial_overflows (mkEnv 1 100) 7 (2 ^ 255) 102 0 10 2
           whale_vault); try reflexivity; try lia; by vm_compute.
Defined.

(** ** Schedules that end beyond the largest timestamp *)

Lemma vested_schedule_overflow now a v :
  MAX_UINT256 < start a + duration a →
  _vestedAmount now a = Ok v → v = 0.
Proof.
  intros Hover. unfold _vestedAmount.
  destruct (Z.le_gt_cases (start a + cliff a) MAX_UINT256); safemath; [|done].
  destruct (Z.lt_ge_cases now (start a + cliff a)); safemath; [|done].
  by intros [= <-].
Qed.

(** X18: [issue] does not check that [startAt + duration] fits in 256 bits.  An
    allocation for which it does not never pays: [release] of its index
    reverts at every time and changes nothing, so only [revoke] gets the
    amount out of the vault. *)
Theorem schedule_beyond_uint256_never_pays
    (env : Env) (b i : Z) (s : State) (a : Allocation) :
  wf_allocation a = true →
  0 ≤ i → allocs s b !! Z.to_nat i = Some a →
  MAX_UINT256 < start a + duration a →
  (∃ e, outcome (release env b i) s = Revert e)
  ∧ state_after (release env b i) s = s.
Proof.
  intros Hwf Hi Hl Hover.
  pose proof (proj1 (wf_allocation_spec a) Hwf) as (_ & _ & _ & _ & Hc & _).
  unfold outcome, state_after.
  destruct (release env b i s) as [es [[u s']|e]] eqn:Hrel; simpl; [|eauto].
  exfalso.
  apply release_Ok_inv in Hrel as (a0 & amount & _ & Hl0 & _ & He & Hpos & _).
  rewrite Hl in Hl0. injection Hl0 as <-.
  apply releasable_inv, (vested_schedule_overflow _ _ _ Hover) in He. lia.
Qed.

Lemma schedule_beyond_uint256_never_pays_witness :
  allocs late_grant 7 = [mkAllocation MAX_UINT256 0 10 30 0 0]
  ∧ (∃ e, outcome (release (mkEnv 9 MAX_UINT256) 7 0) late_grant = Revert e)
  ∧ state_after (release (mkEnv 9 MAX_UINT256) 7 0) late_grant = late_grant.
Proof.
  split; [reflexivity|].
  apply (schedule_beyond_uint256_never_pays (mkEnv 9 MAX_UINT256) 7 0 late_grant
           (mkAllocation MAX_UINT256 0 10 30 0 0));
    [reflexivity | lia | reflexivity | by vm_compute].
Defined.

(** ** Independence of the allocations of one beneficiary *)

(** X19: Releases of two different allocations of a beneficiary at the same time
    commute: if releasing index [i] and then index [j] succeeds, so does
    releasing [j] and then [i], and both orders end in the same state. *)
Theorem releases_commute (env : Env) (b i j : Z) (s : State) es1 s1 es2 s2 :
  wf_env env = true →
  Forall (λ a, wf_allocation a = true) (allocs s b) →
  0 ≤ i → 0 ≤ j → i ≠ j →
  release env b i s = (es1, Ok ((), s1)) →
  release env b j s1 = (es2, Ok ((), s2)) →
  ∃ es1' s1' es2',
    release env b j s = (es1', Ok ((), s1'))
    ∧ release env b i s1' = (es2', Ok ((), s2)).
Proof.
  intros Henv Hall Hi Hj Hij Hrel1 Hrel2.
  unfold wf_env in Henv. rewrite andb_true_iff, !is_uint256_spec in Henv.
  destruct Henv as [_ [Hn _]].
  assert (Z.to_nat i ≠ Z.to_nat j) as Hne by lia.
  apply release_Ok_inv in Hrel1
    as (ai & x & t1 & Hli & _ & Hei & Hx & Ht1 & -> & _).
  apply release_Ok_inv in Hrel2
    as (aj & y & t2 & Hlj & _ & Hej & Hy & Ht2 & -> & _).
  rewrite allocs_set_token, allocs_set_allocs_eq in Hlj.
  rewrite list_lookup_insert_ne in Hlj by done.
  rewrite Forall_lookup in Hall.
  pose proof (Hall _ _ Hli) as Hwfi. pose proof (Hall _ _ Hlj) as Hwfj.
  simpl in Ht2.
  destruct (transfer_inv _ _ _ _ Ht1) as (Hc1 & Hcu1 & _).
  destruct (transfer_inv _ _ _ _ Ht2) as (Hc2 & _ & _).
  destruct (release_Ok env b j s aj y) as (t1' & Ht1' & Hrel1');
    [done | done | done | done | done | done | lia |].
  set (s1' := set_token t1'
                (set_allocs b (<[Z.to_nat j := released y aj]> (allocs s b)) s)) in *.
  destruct (transfer_inv _ _ _ _ Ht1') as (_ & Hcu1' & _).
  destruct (release_Ok env b i s1' ai x) as (t2' & Ht2' & Hrel2');
    [done | done | done | | done | done | subst s1'; simpl; lia |].
  { subst s1'. rewrite allocs_set_token, allocs_set_allocs_eq.
    by rewrite list_lookup_insert_ne. }
  eexists _, s1', _. split; [exact Hrel1'|]. rewrite Hrel2'.
  f_equal. f_equal. f_equal.
  subst s1'. simpl in Ht2'. rewrite !allocs_set_token, !allocs_set_allocs_eq.
  rewrite transfer_Ok in Ht1, Ht1' by lia.
  injection Ht1 as <-. injection Ht1' as <-.
  rewrite transfer_Ok in Ht2, Ht2' by (simpl; lia).
  injection Ht2 as <-. injection Ht2' as <-.
  unfold set_token, set_allocs, Ledger.balanceOf. simpl.
  rewrite !insert_insert_eq, !lookup_insert_eq. simpl.
  rewrite (list_insert_insert_ne _ _ _ _ _ Hne).
  f_equal. f_equal; [lia|]. f_equal. lia.
Qed.

Lemma releases_commute_witness :
  ∃ es1' s1' es2',
    release (mkEnv 9 115) 7 1 two_grants = (es1', Ok ((), s1'))
    ∧ release (mkEnv 9 115) 7 0 s1' =
        (es2', Ok ((), state_after (release (mkEnv 9 115) 7 1)
                         (state_after (release (mkEnv 9 115) 7 0) two_grants))).
Proof.
  apply (releases_commute (mkEnv 9 115) 7 0 1 two_grants
           (effects_of (release (mkEnv 9 115) 7 0) two_grants)
           (state_after (release (mkEnv 9 115) 7 0) two_grants)
           (effects_of (release (mkEnv 9 115) 7 1)
              (state_after (release (mkEnv 9 115) 7 0) two_grants)));
    [reflexivity | repeat constructor | lia | lia | lia
    | by vm_compute | by vm_compute].
Defined.

(** ** What can be released *)

(** X3: Whenever the releasable amount of a stored allocation is defined it lies
    between 0 and what is still owed on the allocation, [total - claimed]:
    a release can never pay more than the grant. *)
Theorem releasable_within_owed (a : Allocation) (now amount : Z) :
  wf_allocation a = true → 0 ≤ now →
  _releasableAmount now a = Ok amount →
  0 ≤ amount ≤ total a - claimed a.
Proof.
  intros Hwf Hn He. destruct (releasable_range _ _ _ Hwf Hn He). lia.
Qed.

Lemma releasable_within_owed_witness :
  0 ≤ 21 ≤ total (mkAllocation 102 0 10 30 9 0) - claimed (mkAllocation 102 0 10 30 9 0).
Proof.
  apply (releasable_within_owed (mkAllocation 102 0 10 30 9 0) 200 21);
    [reflexivity | lia | reflexivity].
Defined.

(** X14: A grant whose schedule has already elapsed when it is issued can be
    released in full at once: [issue] followed by [release] of the new index
    hands the whole amount to the beneficiary. *)
Theorem issue_elapsed_schedule_pays_at_once
    (env env' : Env) (b amount startAt c d pct : Z) (s : State) es s1 :
  wf_op (OpIssue b amount startAt c d pct) = true → wf_env env' = true →
  0 < amount → 0 ≤ Ledger.custodied (token s) →
  startAt + d ≤ block_timestamp env' →
  issue env b amount startAt c d pct s = (es, Ok ((), s1)) →
  let i := Z.of_nat (length (allocs s b)) in
  let s2 := state_after (release env' b i) s1 in
  outcome (release env' b i) s1 = Ok ()
  ∧ Ledger.balanceOf (token s2) b = Ledger.balanceOf (token s1) b + amount
  ∧ Ledger.custodied (token s2) = Ledger.custodied (token s)
  ∧ ∃ a, allocs s2 b = allocs s b ++ [a] ∧ claimed a = total a ∧ total a = amount.
Proof.
  intros Hop Henv Hpos Hcust Hend Hiss i s2. subst i s2.
  simpl in Hop. rewrite !andb_true_iff, !is_uint256_spec in Hop.
  destruct Hop as (((((_ & Ha) & Hst) & Hc) & Hd) & Hp).
  unfold wf_env in Henv. rewrite andb_true_iff, !is_uint256_spec in Henv.
  destruct Henv as [_ [Hn Hmax]].
  apply issue_Ok_inv in Hiss
    as (_ & _ & _ & Hcd & Hpct & Hmul & t' & Ht & -> & _).
  destruct (transferFrom_inv _ _ _ _ Ht) as (_ & _ & Hcu & _).
  set (a := mkAllocation startAt c d amount 0 (amount * pct / 100)).
  set (s1 := set_allocs b (allocs s b ++ [a]) (set_token t' s)).
  set (i := Z.of_nat (length (allocs s b))).
  assert (allocs s1 b = allocs s b ++ [a]) as Hs1
    by (subst s1; by rewrite allocs_set_allocs_eq).
  assert (Z.to_nat i = length (allocs s b)) as Hi by (subst i; lia).
  assert (allocs s1 b !! Z.to_nat i = Some a) as Hl.
  { rewrite Hi, Hs1. by apply list_lookup_middle. }
  assert (0 ≤ amount * pct / 100 ≤ amount) as Hini.
  { split; [apply Z.div_pos; nia | apply Z.div_le_upper_bound; nia]. }
  assert (wf_allocation a = true) as Hwf.
  { apply wf_allocation_spec. simpl. repeat split; lia. }
  assert (_releasableAmount (block_timestamp env') a = Ok amount) as He.
  { unfold _releasableAmount. rewrite vested_after_end by (simpl; lia).
    simpl. safemath. f_equal. lia. }
  destruct (release_Ok env' b i s1 a amount) as (t2 & Ht2 & Hrel);
    [done | lia | subst i; lia | done | done | done | subst s1; simpl; lia |].
  rewrite (state_after_Ok _ _ _ _ _ Hrel), (outcome_of _ _ _ _ Hrel).
  destruct (transfer_inv _ _ _ _ Ht2) as (_ & Hcu2 & Hbal2).
  rewrite allocs_set_token, allocs_set_allocs_eq.
  repeat split; try done.
  - simpl. rewrite Hcu2. subst s1. simpl. lia.
  - exists (released amount a). rewrite Hs1, Hi.
    rewrite insert_app_r_alt by lia. rewrite Nat.sub_diag. simpl.
    repeat split; lia.
Qed.

Lemma issue_elapsed_schedule_pays_at_once_witness :
  outcome (release (mkEnv 9 100) 7 (Z.of_nat 0))
    (state_after (issue (mkEnv 1 100) 7 30 80 0 10 0) fresh_vault) = Ok ()
  ∧ Ledger.balanceOf
      (token (state_after (release (mkEnv 9 100) 7 (Z.of_nat 0))
                (state_after (issue (mkEnv 1 100) 7 30 80 0 10 0) fresh_vault))) 7
    = Ledger.balanceOf
        (token (state_after (issue (mkEnv 1 100) 7 30 80 0 10 0) fresh_vault)) 7 + 30.
Proof.
  destruct (issue_elapsed_schedule_pays_at_once (mkEnv 1 100) (mkEnv 9 100)
              7 30 80 0 10 0 fresh_vault
              (effects_of (issue (mkEnv 1 100) 7 30 80 0 10 0) fresh_vault)
              (state_after (issue (mkEnv 1 100) 7 30 80 0 10 0) fresh_vault))
    as (H1 & H2 & _);
    [reflexivity | reflexivity | lia | by vm_compute | simpl; lia | by vm_compute |].
  split; [exact H1 | exact H2].
Defined.
